(** * Scroll-progress animation and layout subsystem of the festival site

    A shallow embedding of the layout and scroll glue of the front end:
    the FAQ masonry distributor ([Faq], in SectionWrapper.jsx), the hash
    navigator (utils/scrollToSection.js), the walking character's scroll
    handler (ScrollProgressCharacter.jsx) and the control curves that
    [SectionWrapper] and [useScrollSection] configure.

    JavaScript arrays are lists with stdpp's lookup and insert, numbers
    are exact rationals (with the two infinities and NaN where a division
    can produce them), timers are an explicit queue of pending callbacks. *)

From Stdlib Require Import QArith Qabs Lqa.
From stdpp Require Import base list strings gmap.

Open Scope nat_scope.

(** ** Masonry distributor (the [Faq] component) *)

Module Faq.

(** [idx % cols] on non-negative integers.  JavaScript yields NaN for a
    zero divisor, which is no array index: [None]. *)
Definition js_mod (idx cols : nat) : option nat :=
  match cols with
  | O => None
  | S _ => Some (idx mod cols)
  end.

(** The column count held in the [cols] state: the [useState] initialiser.
    [None] is the server-side case, [typeof window === "undefined"]. *)
Definition initialCols (innerWidth : option Z) : nat :=
  match innerWidth with
  | None => 1
  | Some w =>
      if (1024 <=? w)%Z then 3
      else if (640 <=? w)%Z then 2
      else 1
  end.

(** The [resize] listener: the value it passes to [setCols]. *)
Definition onResize (innerWidth : Z) : nat :=
  if (1024 <=? innerWidth)%Z then 3
  else if (640 <=? innerWidth)%Z then 2
  else 1.

Section Columns.
Context {A : Type}.

(** [Array.from({ length: cols }, () => [])]: the callback runs once per
    slot, so the columns are [cols] distinct empty arrays.  What is pushed
    into a column, [{ ...item, index: idx }], is the pair of the item and
    its index. *)
Definition Array_from (cols : nat) : list (list (A * nat)) := replicate cols [].

(** [questions.forEach((item, idx) => arr[idx % cols].push(...))], running
    from index [idx].  [None] is the TypeError of calling [push] on
    [undefined], when [arr[idx % cols]] is no column. *)
Fixpoint forEach (cols : nat) (questions : list A) (idx : nat)
    (arr : list (list (A * nat))) : option (list (list (A * nat))) :=
  match questions with
  | [] => Some arr
  | item :: rest =>
      match js_mod idx cols with
      | None => None
      | Some k =>
          match arr !! k with
          | None => None
          | Some col => forEach cols rest (S idx) (<[k := col ++ [(item, idx)]]> arr)
          end
      end
  end.

(** The [columns] memo. *)
Definition columns (questions : list A) (cols : nat) : option (list (list (A * nat))) :=
  forEach cols questions 0 (Array_from cols).

(** The items paired with their original indices, counting from [idx]. *)
Fixpoint withIndex (idx : nat) (items : list A) : list (A * nat) :=
  match items with
  | [] => []
  | x :: rest => (x, idx) :: withIndex (S idx) rest
  end.

(** Membership of a placed item in the residue class of column [c]. *)
Definition inColumn (cols c : nat) (p : A * nat) : Prop := p.2 mod cols = c.

#[global] Instance inColumn_dec cols c p : Decision (inColumn cols c p) :=
  decide (p.2 mod cols = c).

End Columns.

(** Column count as the specification words it. *)
Definition spec_columnCount (w : Z) : nat :=
  if Z_le_dec 1024 w then 3 else if Z_le_dec 640 w then 2 else 1.

End Faq.

(** ** JavaScript numbers *)

Module Js.

(** A number is a finite value, one of the two infinities, or NaN.  Finite
    values are exact rationals: rounding and the sign of zero are left
    out, a zero divisor counts as +0. *)
Inductive number : Type :=
  | Fin (q : Q)
  | PosInf
  | NegInf
  | NaN.

Definition Qltb (a b : Q) : bool := negb (Qle_bool b a).

(** The infinity with the sign of [q], NaN when [q] is zero. *)
Definition signedInf (q : Q) : number :=
  if Qltb 0 q then PosInf else if Qltb q 0 then NegInf else NaN.

Definition negate (a : number) : number :=
  match a with
  | Fin q => Fin (- q)
  | PosInf => NegInf
  | NegInf => PosInf
  | NaN => NaN
  end.

(** [a / b]. *)
Definition div (a b : number) : number :=
  match a, b with
  | NaN, _ | _, NaN => NaN
  | Fin x, Fin y => if Qeq_bool y 0 then signedInf x else Fin (x / y)
  | Fin _, (PosInf | NegInf) => Fin 0
  | PosInf, Fin y => if Qltb y 0 then NegInf else PosInf
  | NegInf, Fin y => if Qltb y 0 then PosInf else NegInf
  | (PosInf | NegInf), (PosInf | NegInf) => NaN
  end.

(** [a * b]. *)
Definition mul (a b : number) : number :=
  match a, b with
  | NaN, _ | _, NaN => NaN
  | Fin x, Fin y => Fin (x * y)
  | Fin x, PosInf | PosInf, Fin x => signedInf x
  | Fin x, NegInf | NegInf, Fin x => negate (signedInf x)
  | PosInf, PosInf | NegInf, NegInf => PosInf
  | PosInf, NegInf | NegInf, PosInf => NegInf
  end.

(** [Math.max(a, b)]: NaN as soon as one argument is NaN. *)
Definition Math_max (a b : number) : number :=
  match a, b with
  | NaN, _ | _, NaN => NaN
  | PosInf, _ | _, PosInf => PosInf
  | NegInf, c | c, NegInf => c
  | Fin x, Fin y => if Qle_bool x y then Fin y else Fin x
  end.

(** [Math.min(a, b)]. *)
Definition Math_min (a b : number) : number :=
  match a, b with
  | NaN, _ | _, NaN => NaN
  | NegInf, _ | _, NegInf => NegInf
  | PosInf, c | c, PosInf => c
  | Fin x, Fin y => if Qle_bool x y then Fin x else Fin y
  end.

(** A finite value inside the closed interval from [lo] to [hi]. *)
Definition within (lo hi : Q) (a : number) : Prop :=
  match a with
  | Fin q => (lo <= q <= hi)%Q
  | _ => False
  end.

(** [Math.sign] of a finite value, as an integer. *)
Definition sign (q : Q) : Z :=
  if Qltb 0 q then 1%Z else if Qltb q 0 then (-1)%Z else 0%Z.

End Js.

(** ** Character walker (ScrollProgressCharacter.jsx) *)

Module ScrollProgressCharacter.
Import Js.

(** What the handler reads from [window] and [document]: the scroll
    offset, the viewport height, [document.documentElement.scrollHeight],
    the top of the footer's bounding rectangle when there is a footer, and
    the time in milliseconds. *)
Record Window : Type := {
  scrollY : Q;
  innerHeight : Q;
  scrollHeight : Q;
  footerTop : option Q;
  now : nat
}.

(** The component's four state cells and its two refs.  [walkingTimeout]
    holds the due time of the pending timer, if any. *)
Record State : Type := {
  scrollProgress : number;
  isWalking : bool;
  direction : Z;
  footerHeight : Q;
  lastScrollY : Q;
  walkingTimeout : option nat
}.

(** [useState(0)], [useState(false)], [useState(1)], [useState(0)],
    [useRef(0)], [useRef(null)]. *)
Definition mount : State := {|
  scrollProgress := Fin 0;
  isWalking := false;
  direction := 1;
  footerHeight := 0;
  lastScrollY := 0;
  walkingTimeout := None
|}.

(** [Math.min(Math.max((scrollY / maxScroll) * 100, 0), 100)]. *)
Definition progress (scrollY maxScroll : Q) : number :=
  Math_min (Math_max (mul (div (Fin scrollY) (Fin maxScroll)) (Fin 100)) (Fin 0)) (Fin 100).

(** The scroll and resize listener. *)
Definition handleScroll (w : Window) (s : State) : State :=
  let maxScroll := (scrollHeight w - innerHeight w)%Q in
  let scrollDelta := (scrollY w - lastScrollY s)%Q in
  let moved := Qltb 1 (Qabs scrollDelta) in
  {|
    scrollProgress := progress (scrollY w) maxScroll;
    isWalking := if moved then true else isWalking s;
    direction :=
      if moved then (if Qltb 0 scrollDelta then 1 else -1)%Z else direction s;
    footerHeight :=
      match footerTop w with
      | Some top =>
          let visible := (innerHeight w - top)%Q in
          if Qle_bool visible 0 then 0%Q else visible
      | None => footerHeight s
      end;
    lastScrollY := scrollY w;
    walkingTimeout := if moved then Some (now w + 100) else walkingTimeout s
  |}.

(** The timer set by the handler: [setIsWalking(false)]. *)
Definition walkingTimeoutFires (s : State) : State := {|
  scrollProgress := scrollProgress s;
  isWalking := false;
  direction := direction s;
  footerHeight := footerHeight s;
  lastScrollY := lastScrollY s;
  walkingTimeout := None
|}.

End ScrollProgressCharacter.

(** ** Control curves *)

Module Curve.

(** Linear blend of two values: [from] at progress 0, [to] at progress 1. *)
Definition mix (from to p : Q) : Q := (from + (to - from) * p)%Q.

(** Breakpoints in strictly increasing order. *)
Fixpoint increasing (bs : list Q) : bool :=
  match bs with
  | b0 :: ((b1 :: _) as rest) => Js.Qltb b0 b1 && increasing rest
  | _ => true
  end.

(** The segment search: [t] lies above [b0]; walk to the first breakpoint
    that is not below [t] and blend the two values around [t]. *)
Fixpoint between (b0 v0 : Q) (rest : list (Q * Q)) (t : Q) : Q :=
  match rest with
  | [] => v0
  | (b1, v1) :: rest' =>
      if Qle_bool t b1 then mix v0 v1 ((t - b0) / (b1 - b0))
      else between b1 v1 rest' t
  end.

(** Modelled from the spec: the curve evaluator behind [useTransform]
    belongs to the animation library and is not part of the sources.
    Section 4.2: for [t] at or below the first breakpoint return the first
    value; for [t] at or above the last breakpoint return the last value;
    otherwise interpolate linearly between the two bounding breakpoints.
    Arithmetic is exact where the specification has doubles.  An empty
    curve, on which the specification is silent, evaluates to 0. *)
Definition evaluate (curve : list (Q * Q)) (t : Q) : Q :=
  match curve with
  | [] => 0%Q
  | (b0, v0) :: rest =>
      let '(bn, vn) := default (b0, v0) (last rest) in
      if Qle_bool t b0 then v0
      else if Qle_bool bn t then vn
      else between b0 v0 rest t
  end.

(** [useTransform(value, inputRange, outputRange)], read at one value of
    the motion value it follows. *)
Definition useTransform (value : Q) (inputRange outputRange : list Q) : Q :=
  evaluate (zip inputRange outputRange) value.

End Curve.

(** ** The pre-computed curves of the [useScrollSection] hook *)

Module useScrollSection.
Import Curve.

Definition opacity (scrollYProgress : Q) : Q :=
  useTransform scrollYProgress [0; 0.2; 0.8; 1]%Q [0; 1; 1; 0]%Q.
Definition y (scrollYProgress : Q) : Q :=
  useTransform scrollYProgress [0; 0.3; 0.7; 1]%Q [100; 0; 0; -100]%Q.
Definition scale (scrollYProgress : Q) : Q :=
  useTransform scrollYProgress [0; 0.2; 0.8; 1]%Q [0.95; 1; 1; 0.95]%Q.
Definition blur (scrollYProgress : Q) : Q :=
  useTransform scrollYProgress [0; 0.2; 0.8; 1]%Q [10; 0; 0; 10]%Q.

End useScrollSection.

(** ** Section composer (the [SectionWrapper] component) *)

Module SectionWrapper.
Import Curve.

(** The motion values bound to the two gradient layers and to the content
    block. *)
Record Style : Type := {
  blendTopOpacity : Q;
  blendBottomOpacity : Q;
  contentOpacity : Q;
  contentY : Q;
  contentX : Q;
  contentScale : Q
}.

(** The style of a section at one value of its scroll progress.  The
    direction is the [animationDirection] prop, compared as a string. *)
Definition SectionWrapper (animationDirection : string) (scrollYProgress : Q) : Style := {|
  blendTopOpacity := useTransform scrollYProgress [0; 0.15]%Q [1; 0]%Q;
  blendBottomOpacity := useTransform scrollYProgress [0.85; 1]%Q [0; 1]%Q;
  contentOpacity := useTransform scrollYProgress [0; 0.2; 0.8; 1]%Q [0; 1; 1; 0]%Q;
  contentY :=
    useTransform scrollYProgress [0; 0.25; 0.75; 1]%Q
      (if String.eqb animationDirection "up" then [80; 0; 0; -80]%Q
       else if String.eqb animationDirection "down" then [-80; 0; 0; 80]%Q
       else [0; 0; 0; 0]%Q);
  contentX :=
    useTransform scrollYProgress [0; 0.25; 0.75; 1]%Q
      (if String.eqb animationDirection "left" then [80; 0; 0; -80]%Q
       else if String.eqb animationDirection "right" then [-80; 0; 0; 80]%Q
       else [0; 0; 0; 0]%Q);
  contentScale := useTransform scrollYProgress [0; 0.2; 0.8; 1]%Q [0.95; 1; 1; 0.98]%Q
|}.

(** The profile of a sliding offset at progress [t]: from [e] linearly to
    rest over the first quarter, at rest in the middle, and linearly out
    to [- e] over the last quarter. *)
Definition slides (e t offset : Q) : Prop :=
  ((t <= 0.25)%Q → offset == e * (1 - t / 0.25)) ∧
  ((0.25 <= t <= 0.75)%Q → offset == 0) ∧
  ((0.75 <= t)%Q → offset == - e * ((t - 0.75) / 0.25)).

End SectionWrapper.

(** ** Hash navigator (utils/scrollToSection.js) *)

Module HashNavigation.

(** A pending timer callback.  The only closure the module schedules is
    [() => attemptScroll(attempts)], over the section id of its call. *)
Inductive callback : Type :=
  | AttemptScroll (sectionId : string) (attempts : nat).

(** What the navigator does to the document, with the time of each act. *)
Inductive event : Type :=
  | GetElementById (time : nat) (id : string) (found : bool)
  | ScrollIntoView (time : nat) (id : string).

(** The event loop as the navigator sees it: the clock in milliseconds,
    the number of timers fired so far, the pending timers ordered by due
    time, the acts so far (oldest first) and the exceptions that escaped a
    callback. *)
Record Loop : Type := {
  clock : nat;
  fired : nat;
  timers : list (nat * callback);
  log : list event;
  uncaught : list string
}.

(** The surroundings: which ids the document holds at a given time, and by
    how much the n-th timer to fire runs late ([setTimeout] promises no
    more than a minimum delay). *)
Record Env : Type := {
  document : nat → string → bool;
  lateness : nat → nat
}.

Definition idle (time : nat) : Loop :=
  {| clock := time; fired := 0; timers := []; log := []; uncaught := [] |}.

(** Insertion by due time, after the timers due no later. *)
Fixpoint enqueue (due : nat) (cb : callback) (ts : list (nat * callback))
    : list (nat * callback) :=
  match ts with
  | [] => [(due, cb)]
  | (d, c) :: rest =>
      if due <? d then (due, cb) :: ts else (d, c) :: enqueue due cb rest
  end.

(** [setTimeout(cb, delay)]. *)
Definition setTimeout (cb : callback) (delay : nat) (l : Loop) : Loop := {|
  clock := clock l;
  fired := fired l;
  timers := enqueue (clock l + delay) cb (timers l);
  log := log l;
  uncaught := uncaught l
|}.

Definition record (e : event) (l : Loop) : Loop := {|
  clock := clock l;
  fired := fired l;
  timers := timers l;
  log := log l ++ [e];
  uncaught := uncaught l
|}.

(** [document.getElementById(id)]: the element, named by its id, or null. *)
Definition getElementById (env : Env) (id : string) (l : Loop) : option string * Loop :=
  let found := document env (clock l) id in
  ((if found then Some id else None), record (GetElementById (clock l) id found) l).

(** [element.scrollIntoView({ behavior: 'smooth', block: 'start' })].  On
    null the property access throws a TypeError. *)
Definition scrollIntoView (element : option string) (l : Loop) : string + Loop :=
  match element with
  | Some id => inr (record (ScrollIntoView (clock l) id) l)
  | None => inl "TypeError"%string
  end.

(** [scrollToSection(sectionId)]: a no-op when the element is missing. *)
Definition scrollToSection (env : Env) (sectionId : string) (l : Loop)
    : string + Loop :=
  let '(element, l) := getElementById env sectionId l in
  match element with
  | Some _ => scrollIntoView element l
  | None => inr l
  end.

(** The body of [attemptScroll]. *)
Definition attemptScroll (env : Env) (sectionId : string) (attempts : nat)
    (l : Loop) : string + Loop :=
  let '(element, l) := getElementById env sectionId l in
  match element with
  | Some _ => scrollIntoView element l
  | None =>
      if attempts <? 10
      then inr (setTimeout (AttemptScroll sectionId (attempts + 1)) 100 l)
      else inr l
  end.

(** [hash.substring(1)]. *)
Definition substring1 (hash : string) : string :=
  match hash with
  | EmptyString => EmptyString
  | String _ rest => rest
  end.

(** [handleHashNavigation], given [window.location.hash]. *)
Definition handleHashNavigation (hash : string) (l : Loop) : Loop :=
  match hash with
  | EmptyString => l
  | _ => setTimeout (AttemptScroll (substring1 hash) 0) 100 l
  end.

Definition run (env : Env) (cb : callback) (l : Loop) : string + Loop :=
  match cb with
  | AttemptScroll sectionId attempts => attemptScroll env sectionId attempts l
  end.

(** One turn of the event loop: the earliest timer fires, no sooner than
    it is due; an exception that escapes the callback is reported and the
    loop goes on.  [None] when no timer is pending. *)
Definition tick (env : Env) (l : Loop) : option Loop :=
  match timers l with
  | [] => None
  | (due, cb) :: rest =>
      let l' := {|
        clock := Nat.max (clock l) due + lateness env (fired l);
        fired := S (fired l);
        timers := rest;
        log := log l;
        uncaught := uncaught l
      |} in
      match run env cb l' with
      | inr l'' => Some l''
      | inl exn => Some {|
          clock := clock l'; fired := fired l'; timers := timers l';
          log := log l'; uncaught := uncaught l' ++ [exn] |}
      end
  end.

(** At most [turns] turns of the loop. *)
Fixpoint turn (turns : nat) (env : Env) (l : Loop) : Loop :=
  match turns with
  | O => l
  | S n =>
      match tick env l with
      | None => l
      | Some l' => turn n env l'
      end
  end.

(** When the attempt numbered [k] runs if none before it found the
    element, for an invocation at time [start] on an idle loop. *)
Fixpoint attemptTime (env : Env) (start k : nat) : nat :=
  match k with
  | O => start + 100 + lateness env 0
  | S j => attemptTime env start j + 100 + lateness env k
  end.

Definition isScroll (e : event) : bool :=
  match e with
  | ScrollIntoView _ _ => true
  | GetElementById _ _ _ => false
  end.

Definition isLookup (e : event) : bool := negb (isScroll e).

(** The log of [j] attempts that all missed the element. *)
Definition failedLookups (env : Env) (start : nat) (id : string) (j : nat)
    : list event :=
  (λ k, GetElementById (attemptTime env start k) id false) <$> seq 0 j.

(** The loop after [j] missed attempts, for an invocation at time [start]
    on an idle loop: the attempt numbered [j] is the one pending timer. *)
Definition pending (env : Env) (start : nat) (id : string) (j : nat) : Loop :=
  let time := match j with O => start | S i => attemptTime env start i end in
  {| clock := time; fired := j;
     timers := [(time + 100, AttemptScroll id j)];
     log := failedLookups env start id j; uncaught := [] |}.

(** The loop at rest after the attempt numbered [j] ran, with the log it
    leaves. *)
Definition settled (env : Env) (start j : nat) (events : list event) : Loop :=
  {| clock := attemptTime env start j; fired := S j; timers := [];
     log := events; uncaught := [] |}.

End HashNavigation.

(** ** The FAQ data as the [Faq] component receives it *)

Module FaqQuestions.

(** An entry of [faqData]. *)
Record Entry : Type := {
  id : nat;
  question : string;
  answer : string
}.

(** An element of [questions]: [{ id: i, q: item.question, a: item.answer }]. *)
Record Question : Type := {
  key : nat;
  q : string;
  a : string
}.

(** [faqData.map((item, i) => ({ id: i, q: ..., a: ... }))]; the field
    [key] stands for the [id] of the new object, which is the position,
    not the [id] of the entry. *)
Definition questions (faqData : list Entry) : list Question :=
  imap (λ i item, {| key := i; q := question item; a := answer item |}) faqData.

End FaqQuestions.

(** ** Character walker: what is rendered, and the events it reacts to *)

Module ScrollProgressCharacterView.
Import Js ScrollProgressCharacter.

(** A CSS length in pixels, the template string [`${n}px`]. *)
Inductive css : Type :=
  | Px (n : number).

Definition characterWidth : Q := 56.
Definition characterHeight : Q := 72.

(** [getHorizontalPosition]; [None] is [typeof window === "undefined"]. *)
Definition getHorizontalPosition (innerWidth : option Q) (s : State) : css :=
  let viewportWidth := match innerWidth with Some w => w | None => 1920%Q end in
  let maxLeft := (viewportWidth - characterWidth)%Q in
  let leftPx := mul (div (scrollProgress s) (Fin 100)) (Fin maxLeft) in
  Px leftPx.

(** [getBottomPosition]. *)
Definition getBottomPosition (s : State) : css :=
  if Qltb 0 (footerHeight s) then Px (Fin (footerHeight s)) else Px (Fin 0).

(** What reaches the mounted component: a scroll or a resize event, both
    bound to [handleScroll], and the walking timer coming due. *)
Inductive event : Type :=
  | Scroll (w : Window)
  | Resize (w : Window)
  | TimerDue (time : nat).

(** The effect at mount: the listeners are added and [handleScroll()] is
    called once. *)
Definition mounted (w : Window) : State := handleScroll w mount.

(** The pending timer fires once its delay has passed; a timer replaced by
    [clearTimeout] and [setTimeout] is no longer there to fire. *)
Definition step (s : State) (e : event) : State :=
  match e with
  | Scroll w | Resize w => handleScroll w s
  | TimerDue time =>
      match walkingTimeout s with
      | Some due => if due <=? time then walkingTimeoutFires s else s
      | None => s
      end
  end.

Definition steps (s : State) (events : list event) : State :=
  fold_left step events s.

(** Scroll events that each move the page by at most one pixel from the
    offset of the event before, starting from the offset [from]. *)
Fixpoint slowly (from : Q) (windows : list Window) : Prop :=
  match windows with
  | [] => True
  | w :: rest => (Qabs (scrollY w - from) <= 1)%Q ∧ slowly (scrollY w) rest
  end.

(** What every reachable state satisfies: the sprite faces right or left,
    the footer clearance is not negative, and a walking character has its
    stop timer pending. *)
Definition invariant (s : State) : Prop :=
  (direction s = 1 ∨ direction s = -1)%Z ∧
  (0 <= footerHeight s)%Q ∧
  (isWalking s = true → is_Some (walkingTimeout s)).

End ScrollProgressCharacterView.

(** ** Elite events panel (the [Elite] component) *)

Module Elite.

(** An entry of [events]. *)
Record Event : Type := {
  id : Z;
  title : string;
  slug : string;
  image : string;
  description : string;
  isElite : bool
}.

(** [events.filter(event => event.isElite)]. *)
Definition eliteEvents (events : list Event) : list Event :=
  List.filter isElite events.

(** [useState(eliteEvents[0]?.id || null)]: an id of 0 is falsy. *)
Definition initialTab (events : list Event) : option Z :=
  match eliteEvents events with
  | [] => None
  | first :: _ => if (id first =? 0)%Z then None else Some (id first)
  end.

(** [eliteEvents.find((event) => event.id === activeTab)]; no id is
    strictly equal to null. *)
Definition activeEvent (events : list Event) (activeTab : option Z) : option Event :=
  match activeTab with
  | None => None
  | Some tab => List.find (λ event, (id event =? tab)%Z) (eliteEvents events)
  end.

(** The click handler of the tab of [event]: [setActiveTab(event.id)]. *)
Definition onClick (event : Event) (activeTab : option Z) : option Z :=
  Some (id event).

(** The tabs: each elite event with its [isActive] flag. *)
Definition tabs (events : list Event) (activeTab : option Z) : list (Event * bool) :=
  (λ event,
     (event, match activeTab with
             | Some tab => (id event =? tab)%Z
             | None => false
             end)) <$> eliteEvents events.

(** The details panel reads [activeEvent.image], [activeEvent.title],
    [activeEvent.description] and [activeEvent.slug]: a TypeError when
    [activeEvent] is undefined. *)
Definition detailsPanel (events : list Event) (activeTab : option Z)
    : string + (string * string * string * string) :=
  match activeEvent events activeTab with
  | Some event => inr (image event, title event, description event, slug event)
  | None => inl "TypeError"%string
  end.

(** The tab state after clicks on the given events, oldest first. *)
Definition clicks (activeTab : option Z) (clicked : list Event) : option Z :=
  fold_left (λ tab event, onClick event tab) clicked activeTab.

End Elite.

(** ** Navbar scroll state (the [useNavbarScroll] hook) *)

Module useNavbarScroll.

Record State : Type := {
  isScrolled : bool;
  isAtHero : bool
}.

(** [useState(false)] and [useState(true)]. *)
Definition initial : State := {| isScrolled := false; isAtHero := true |}.

(** The scroll listener, for a hook called with [threshold]. *)
Definition handleScroll (threshold scrollY innerHeight : Q) : State := {|
  isScrolled := Js.Qltb threshold scrollY;
  isAtHero := Js.Qltb scrollY (innerHeight * 0.5)
|}.

End useNavbarScroll.

(** ** Active section tracking (the [useActiveSection] hook) *)

Module useActiveSection.

(** What an observer callback reads of its entry. *)
Record Entry : Type := {
  isIntersecting : bool;
  intersectionRatio : Q
}.

(** [useState(sectionIds[0] || null)]: the empty string is falsy. *)
Definition initial (sectionIds : list string) : option string :=
  match sectionIds with
  | [] => None
  | first :: _ => if String.eqb first "" then None else Some first
  end.

(** The ids that get an observer: those whose element is in the document
    when the effect runs. *)
Definition observed (present : string → bool) (sectionIds : list string) : list string :=
  List.filter present sectionIds.

(** The observer callback created for [id]. *)
Definition callback (id : string) (entry : Entry) (activeSection : option string)
    : option string :=
  if isIntersecting entry && Js.Qltb 0.3 (intersectionRatio entry)
  then Some id
  else activeSection.

(** Delivery of an entry for the element [id]: only an existing observer
    has a callback to run. *)
Definition deliver (present : string → bool) (sectionIds : list string)
    (activeSection : option string) (change : string * Entry) : option string :=
  if bool_decide (change.1 ∈ observed present sectionIds)
  then callback change.1 change.2 activeSection
  else activeSection.

Definition delivered (present : string → bool) (sectionIds : list string)
    (changes : list (string * Entry)) : option string :=
  fold_left (deliver present sectionIds) changes (initial sectionIds).

End useActiveSection.

(** ** Animation variants (utils/motion.js) *)

Module motion.

(** An offset is a number of pixels or a percentage string. *)
Inductive offset : Type :=
  | Pixels (n : Q)
  | Percent (n : Q).

(** The [hidden] state of a variant: the keys it has. *)
Record Hidden : Type := {
  x : option offset;
  y : option offset;
  opacity : option Q
}.

(** The [transition] of the [show] state: the keys it has. *)
Record Transition : Type := {
  type : option string;
  delay : option Q;
  duration : option Q;
  ease : option string;
  stiffness : option Q;
  damping : option Q
}.

(** A variant whose [show] state rests at the origin with opacity
    [showOpacity]. *)
Record Variant : Type := {
  hidden : Hidden;
  showOpacity : option Q;
  transition : Transition
}.

(** [fadeIn(direction, type, delay, duration)]. *)
Definition fadeIn (direction type : string) (delay duration : Q) : Variant := {|
  hidden := {|
    x := Some (Pixels (if String.eqb direction "left" then 100
                       else if String.eqb direction "right" then -100 else 0));
    y := Some (Pixels (if String.eqb direction "up" then 100
                       else if String.eqb direction "down" then -100 else 0));
    opacity := Some 0%Q
  |};
  showOpacity := Some 1%Q;
  transition := {| type := Some type; delay := Some delay;
                   duration := Some duration; ease := Some "easeOut"%string;
                   stiffness := None; damping := None |}
|}.

(** [slideIn(direction, type, delay, duration)]. *)
Definition slideIn (direction type : string) (delay duration : Q) : Variant := {|
  hidden := {|
    x := Some (if String.eqb direction "left" then Percent (-100)
               else if String.eqb direction "right" then Percent 100
               else Pixels 0);
    y := Some (if String.eqb direction "up" then Percent 100
               else if String.eqb direction "down" then Percent 100
               else Pixels 0);
    opacity := None
  |};
  showOpacity := None;
  transition := {| type := Some type; delay := Some delay;
                   duration := Some duration; ease := Some "easeOut"%string;
                   stiffness := None; damping := None |}
|}.

(** The [directions] table of [scrollReveal]: the [x] and [y] keys of each
    entry. *)
Definition directions : gmap string (option offset * option offset) :=
  {[ "up"%string := (None, Some (Pixels 80));
     "down"%string := (None, Some (Pixels (-80)));
     "left"%string := (Some (Pixels 80), None);
     "right"%string := (Some (Pixels (-80)), None) ]}.

(** [scrollReveal(direction, delay)]: [...directions[direction]] spreads
    nothing when the table has no such entry. *)
Definition scrollReveal (direction : string) (delay : Q) : Variant := {|
  hidden := {|
    x := directions !! direction ≫= fst;
    y := directions !! direction ≫= snd;
    opacity := Some 0%Q
  |};
  showOpacity := Some 1%Q;
  transition := {| type := Some "spring"%string; delay := Some delay;
                   duration := None; ease := None;
                   stiffness := Some 100%Q; damping := Some 20%Q |}
|}.

(** The number of pixels an offset key stands for when the key is missing
    or zero. *)
Definition pixels (o : option offset) : option Q :=
  match o with
  | None => Some 0%Q
  | Some (Pixels n) => Some n
  | Some (Percent _) => None
  end.

End motion.

(** * Theorems *)

Section MasonryFacts.
Import Faq.
Context {A : Type}.
Implicit Types (items : list A) (arr : list (list (A * nat))).

Lemma withIndex_snd items idx :
  (withIndex idx items).*2 = seq idx (length items).
Proof.
  revert idx. induction items as [|x items IH]; intros idx; simpl; [done|].
  by rewrite IH.
Qed.

Lemma withIndex_NoDup items idx : NoDup (withIndex idx items).
Proof.
  apply (NoDup_fmap_1 snd). rewrite withIndex_snd. apply NoDup_seq.
Qed.

Lemma withIndex_lookup items idx i x :
  items !! i = Some x → withIndex idx items !! i = Some (x, idx + i).
Proof.
  revert idx i. induction items as [|y items IH]; intros idx [|i] Hx;
    simplify_eq/=.
  - by rewrite Nat.add_0_r.
  - replace (idx + S i) with (S idx + i) by lia. by apply IH.
Qed.

Lemma withIndex_elem items idx x i :
  (x, i) ∈ withIndex idx items ↔ idx ≤ i ∧ items !! (i - idx) = Some x.
Proof.
  revert idx. induction items as [|y items IH]; intros idx; simpl.
  - rewrite elem_of_nil. split; [done|]. intros [_ Hl]. by rewrite lookup_nil in Hl.
  - rewrite elem_of_cons, IH. split.
    + intros [Heq | [Hle Hl]].
      * simplify_eq. split; [lia|]. by rewrite Nat.sub_diag.
      * split; [lia|]. replace (i - idx) with (S (i - S idx)) by lia. done.
    + intros [Hle Hl]. destruct (decide (i = idx)) as [->|Hne].
      * left. rewrite Nat.sub_diag in Hl. by simplify_eq/=.
      * right. split; [lia|].
        replace (i - idx) with (S (i - S idx)) in Hl by lia. done.
Qed.

(** One run of the loop: every column keeps what it had and gains, in
    order, the items whose index falls in its residue class. *)
Lemma forEach_columns cols items idx arr :
  0 < cols → length arr = cols →
  ∃ arr', forEach cols items idx arr = Some arr' ∧ length arr' = cols ∧
    ∀ c col, arr !! c = Some col →
      arr' !! c = Some (col ++ filter (inColumn cols c) (withIndex idx items)).
Proof.
  intros Hc. revert idx arr.
  induction items as [|x items IH]; intros idx arr Hlen; cbn [forEach withIndex].
  - exists arr. split_and!; [done..|]. intros c col ->. by rewrite app_nil_r.
  - unfold js_mod. destruct cols as [|n]; [lia|].
    set (k := idx mod S n).
    assert (k < length arr) as Hk by (rewrite Hlen; apply Nat.mod_upper_bound; lia).
    destruct (lookup_lt_is_Some_2 arr k Hk) as [col0 Hcol0]. rewrite Hcol0.
    destruct (IH (S idx) (<[k := col0 ++ [(x, idx)]]> arr)) as (arr' & Hrun & Hlen' & Hcols).
    { by rewrite length_insert. }
    exists arr'. split_and!; [done..|].
    intros c col Hcol. destruct (decide (c = k)) as [->|Hne].
    + rewrite (Hcols k (col0 ++ [(x, idx)])).
      * rewrite filter_cons_True by done. simplify_eq. by rewrite <- app_assoc.
      * by rewrite list_lookup_insert_eq.
    + rewrite (Hcols c col).
      * rewrite filter_cons_False; [done|]. unfold inColumn; cbn [snd]. fold k. congruence.
      * by rewrite list_lookup_insert_ne.
Qed.

(** A column outside the class of [x] does not see [x]. *)
Lemma classes_skip cols (x : A * nat) (l : list (A * nat)) (cs : list nat) :
  x.2 mod cols ∉ cs →
  concat ((λ c, filter (inColumn cols c) (x :: l)) <$> cs)
  = concat ((λ c, filter (inColumn cols c) l) <$> cs).
Proof.
  induction cs as [|c cs IH]; intros Hk; [done|].
  apply not_elem_of_cons in Hk as [Hne Hk]. cbn [fmap list_fmap concat].
  rewrite filter_cons_False by (unfold inColumn; congruence).
  f_equal. by apply IH.
Qed.

Lemma classes_cons cols (x : A * nat) (l : list (A * nat)) (cs : list nat) :
  NoDup cs → x.2 mod cols ∈ cs →
  concat ((λ c, filter (inColumn cols c) (x :: l)) <$> cs)
  ≡ₚ x :: concat ((λ c, filter (inColumn cols c) l) <$> cs).
Proof.
  induction cs as [|c cs IH]; intros Hnd Hk.
  - by apply elem_of_nil in Hk.
  - apply NoDup_cons in Hnd as [Hc Hnd]. cbn [fmap list_fmap concat].
    destruct (decide (x.2 mod cols = c)) as [Heq|Hne].
    + rewrite filter_cons_True by done.
      rewrite classes_skip by (by rewrite Heq). done.
    + rewrite filter_cons_False by done.
      apply elem_of_cons in Hk as [?|Hk]; [done|].
      rewrite (IH Hnd Hk). by rewrite Permutation_middle.
Qed.

(** Splitting a list by residue class of the index and gluing the classes
    back together only reorders it. *)
Lemma classes_Permutation cols (l : list (A * nat)) :
  0 < cols →
  concat ((λ c, filter (inColumn cols c) l) <$> seq 0 cols) ≡ₚ l.
Proof.
  intros Hc. induction l as [|x l IH].
  - induction (seq 0 cols) as [|c cs IHcs]; [done|].
    cbn [fmap list_fmap concat]. by rewrite filter_nil.
  - rewrite classes_cons, IH; [done|apply NoDup_seq|].
    apply elem_of_seq. split; [lia|]. simpl. apply Nat.mod_upper_bound. lia.
Qed.

(** The memo, in closed form: column [c] is the sub-list of the indexed
    items whose index is congruent to [c]. *)
Lemma columns_closed_form items cols :
  0 < cols →
  columns items cols
  = Some ((λ c, filter (inColumn cols c) (withIndex 0 items)) <$> seq 0 cols).
Proof.
  intros Hc. unfold columns, Array_from.
  destruct (forEach_columns cols items 0 (replicate cols []) Hc)
    as (arr' & -> & Hlen & Hcols); [by rewrite length_replicate|].
  f_equal. apply list_eq. intros c.
  rewrite list_lookup_fmap. destruct (decide (c < cols)) as [Hlt|Hge].
  - rewrite lookup_seq_lt by done. simpl.
    apply (Hcols c []). by apply lookup_replicate_2.
  - rewrite lookup_seq_ge by lia. simpl. apply lookup_ge_None. lia.
Qed.

(** C1.  For a positive column count the masonry memo succeeds with
    [cols] columns; column [c] holds, in their original relative order,
    exactly the items whose original index [i] has [i mod cols = c]; the
    item at index [i] is found in column [i mod cols] and in no other; no
    placed item occurs twice; and the columns together are the original
    items, reordered. *)
Theorem masonry_round_robin_partition items cols :
  0 < cols →
  ∃ arr, columns items cols = Some arr ∧ length arr = cols ∧
    (∀ c, c < cols →
       arr !! c = Some (filter (inColumn cols c) (withIndex 0 items))) ∧
    (∀ i x, items !! i = Some x →
       ∃ col, arr !! (i mod cols) = Some col ∧ (x, i) ∈ col ∧
         ∀ c col', arr !! c = Some col' → (x, i) ∈ col' → c = i mod cols) ∧
    NoDup (concat arr) ∧
    concat arr ≡ₚ withIndex 0 items.
Proof.
  intros Hc. eexists. split; [by apply columns_closed_form|].
  set (arr := (λ c, filter (inColumn cols c) (withIndex 0 items)) <$> seq 0 cols).
  assert (∀ c, c < cols →
    arr !! c = Some (filter (inColumn cols c) (withIndex 0 items))) as Hcol.
  { intros c Hlt. unfold arr. rewrite list_lookup_fmap.
    by rewrite lookup_seq_lt. }
  assert (concat arr ≡ₚ withIndex 0 items) as Hperm
    by (by apply classes_Permutation).
  split_and!; [|done| |by rewrite Hperm; apply withIndex_NoDup|done].
  - unfold arr. by rewrite length_fmap, length_seq.
  - intros i x Hx.
    assert (i mod cols < cols) as Hlt by (apply Nat.mod_upper_bound; lia).
    eexists. split; [by apply Hcol|]. split.
    + apply list_elem_of_filter. split; [done|].
      apply withIndex_elem. split; [lia|]. by rewrite Nat.sub_0_r.
    + intros c col' Hc' Hin.
      assert (c < cols) as Hlt'.
      { apply lookup_lt_Some in Hc'. unfold arr in Hc'.
        by rewrite length_fmap, length_seq in Hc'. }
      rewrite (Hcol c Hlt') in Hc'. simplify_eq.
      apply list_elem_of_filter in Hin as [Hin _]. by rewrite <- Hin.
Qed.

End MasonryFacts.

(** The example of the specification: ten items over three columns. *)
Example masonry_ten_items_three_columns :
  (λ col, col.*1) <$> default [] (Faq.columns (seq 0 10) 3)
  = [[0; 3; 6; 9]; [1; 4; 7]; [2; 5; 8]].
Proof. reflexivity. Qed.

Lemma masonry_round_robin_partition_witness :
  0 < 3 ∧
  ∃ arr, Faq.columns (seq 0 10) 3 = Some arr ∧ length arr = 3 ∧
    (∀ c, c < 3 →
       arr !! c = Some (filter (Faq.inColumn 3 c) (Faq.withIndex 0 (seq 0 10)))) ∧
    (∀ i x, seq 0 10 !! i = Some x →
       ∃ col, arr !! (i mod 3) = Some col ∧ (x, i) ∈ col ∧
         ∀ c col', arr !! c = Some col' → (x, i) ∈ col' → c = i mod 3) ∧
    NoDup (concat arr) ∧
    concat arr ≡ₚ Faq.withIndex 0 (seq 0 10).
Proof.
  split; [lia|]. apply (masonry_round_robin_partition (seq 0 10) 3). lia.
Defined.

(** ** Column count *)

Section ColumnCountFacts.
Import Faq.

(** C8.  The column count is 3 from 1024 pixels on, 2 from 640 pixels on
    and 1 below; exactly 1024 gives 3 columns; and the same function of the
    viewport width is computed when the component mounts and in the resize
    listener. *)
Theorem column_count_of_width (w : Z) :
  initialCols (Some w) = spec_columnCount w ∧
  onResize w = spec_columnCount w ∧
  ((1024 <= w)%Z → onResize w = 3) ∧
  ((640 <= w < 1024)%Z → onResize w = 2) ∧
  ((w < 640)%Z → onResize w = 1) ∧
  onResize 1023 = 2 ∧ onResize 1024 = 3 ∧ initialCols (Some 1024%Z) = 3.
Proof.
  unfold initialCols, onResize, spec_columnCount.
  destruct (Z.leb_spec 1024 w), (Z.leb_spec 640 w);
    repeat destruct (Z_le_dec _ _); split_and!; intros; try lia; reflexivity.
Qed.

Lemma column_count_of_width_witness :
  initialCols (Some 1024%Z) = spec_columnCount 1024 ∧
  onResize 1024 = spec_columnCount 1024 ∧
  ((1024 <= 1024)%Z → onResize 1024 = 3) ∧
  ((640 <= 1024 < 1024)%Z → onResize 1024 = 2) ∧
  ((1024 < 640)%Z → onResize 1024 = 1) ∧
  onResize 1023 = 2 ∧ onResize 1024 = 3 ∧ initialCols (Some 1024%Z) = 3.
Proof. exact (column_count_of_width 1024). Defined.

End ColumnCountFacts.

(** ** Character walker *)

Section CharacterFacts.
Import Js ScrollProgressCharacter.

Lemma Qltb_lt (a b : Q) : Qltb a b = true ↔ (a < b)%Q.
Proof.
  unfold Qltb. rewrite negb_true_iff, <- not_true_iff_false, Qle_bool_iff.
  split; [apply Qnot_le_lt | apply Qlt_not_le].
Qed.

Lemma Qltb_ge (a b : Q) : Qltb a b = false ↔ (b <= a)%Q.
Proof. unfold Qltb. by rewrite negb_false_iff, Qle_bool_iff. Qed.

(** Clamping a number that is not NaN lands between the two bounds. *)
Lemma clamp_within (a : number) :
  a ≠ NaN → within 0 100 (Math_min (Math_max a (Fin 0)) (Fin 100)).
Proof.
  intros Ha. destruct a as [q| | |]; simpl; [|lra|lra|done].
  destruct (Qle_bool q 0) eqn:H0; simpl.
  - split; lra.
  - apply not_true_iff_false in H0. rewrite Qle_bool_iff in H0.
    destruct (Qle_bool q 100) eqn:H100; simpl.
    + apply Qle_bool_iff in H100. lra.
    + lra.
Qed.

(** Away from the division 0/0 (offset 0 on a page with no scrollable
    distance) the clamp works: whatever the scroll offset, negative or
    past the scrollable distance, the stored progress is a finite
    percentage between 0 and 100. *)
Lemma scroll_progress_clamped (w : Window) (s : State) :
  ¬ (scrollY w == 0 ∧ scrollHeight w - innerHeight w == 0) →
  within 0 100 (scrollProgress (handleScroll w s)).
Proof.
  intros Hnz. cbn [handleScroll scrollProgress]. unfold progress.
  apply clamp_within. cbn [div].
  destruct (Qeq_bool (scrollHeight w - innerHeight w) 0) eqn:Hmax.
  - apply Qeq_bool_iff in Hmax. unfold signedInf.
    destruct (Qltb 0 (scrollY w)) eqn:Hpos; [done|].
    destruct (Qltb (scrollY w) 0) eqn:Hneg; [done|].
    apply Qltb_ge in Hpos, Hneg. destruct Hnz. split; [lra|done].
  - done.
Qed.

Lemma scroll_progress_clamped_witness :
  within 0 100 (scrollProgress (handleScroll
    {| scrollY := -40; innerHeight := 800; scrollHeight := 2400;
       footerTop := None; now := 0 |} mount)) ∧
  within 0 100 (scrollProgress (handleScroll
    {| scrollY := 1700; innerHeight := 800; scrollHeight := 2400;
       footerTop := None; now := 0 |} mount)) ∧
  within 0 100 (scrollProgress (handleScroll
    {| scrollY := 5; innerHeight := 800; scrollHeight := 800;
       footerTop := None; now := 0 |} mount)).
Proof.
  split_and!; apply scroll_progress_clamped; simpl;
    intros [H _]; revert H; unfold Qeq; simpl; lia.
Defined.

(** C5.  The stored progress is not in range for every scroll position:
    at scroll offset 0 on a page exactly as high as the viewport, which is
    where a page that fits the viewport is at mount and stays, the handler
    stores NaN, which lies neither in 0..100 nor, divided by 100, in 0..1. *)
Theorem scroll_progress_not_clamped_at_rest :
  scrollProgress (handleScroll
    {| scrollY := 0; innerHeight := 600; scrollHeight := 600;
       footerTop := None; now := 0 |} mount) = NaN
  ∧ ¬ (∀ (w : Window) (s : State),
         within 0 100 (scrollProgress (handleScroll w s)))
  ∧ ¬ (∀ (w : Window) (s : State),
         within 0 1 (div (scrollProgress (handleScroll w s)) (Fin 100))).
Proof.
  split; [reflexivity|]. split; intros Hall.
  - exact (Hall {| scrollY := 0; innerHeight := 600; scrollHeight := 600;
                   footerTop := None; now := 0 |} mount).
  - exact (Hall {| scrollY := 0; innerHeight := 600; scrollHeight := 600;
                   footerTop := None; now := 0 |} mount).
Qed.

(** C6, at the page that exactly fills the viewport: the handler stores
    NaN, not a percentage. *)
Theorem scroll_progress_nan_without_scroll_range :
  scrollProgress (handleScroll
    {| scrollY := 0; innerHeight := 800; scrollHeight := 800;
       footerTop := None; now := 0 |} mount) = NaN
  ∧ ¬ within 0 100 (scrollProgress (handleScroll
    {| scrollY := 0; innerHeight := 800; scrollHeight := 800;
       footerTop := None; now := 0 |} mount)).
Proof. split; [reflexivity | intros []]. Qed.

(** The same for every page without a scrollable distance, at offset 0. *)
Lemma scroll_progress_nan (w : Window) (s : State) :
  scrollY w == 0 → scrollHeight w - innerHeight w == 0 →
  scrollProgress (handleScroll w s) = NaN.
Proof.
  intros Hy Hmax. cbn [handleScroll scrollProgress]. unfold progress. cbn [div].
  apply Qeq_bool_iff in Hmax. rewrite Hmax. unfold signedInf.
  assert (Qltb 0 (scrollY w) = false) as -> by (apply Qltb_ge; lra).
  assert (Qltb (scrollY w) 0 = false) as -> by (apply Qltb_ge; lra).
  reflexivity.
Qed.

(** C7.  A scroll event whose offset differs from the previous one by at
    most one pixel leaves the facing direction as it was; a larger
    difference sets it to the sign of the difference. *)
Theorem direction_dead_zone (w : Window) (s : State) :
  ((Qabs (scrollY w - lastScrollY s) <= 1)%Q →
     direction (handleScroll w s) = direction s) ∧
  ((1 < Qabs (scrollY w - lastScrollY s))%Q →
     direction (handleScroll w s) = sign (scrollY w - lastScrollY s)).
Proof.
  cbn [handleScroll direction]. split; intros Hd.
  - apply Qltb_ge in Hd. by rewrite Hd.
  - pose proof Hd as Hd'. apply Qltb_lt in Hd'. rewrite Hd'. unfold sign.
    destruct (Qltb 0 (scrollY w - lastScrollY s)) eqn:Hpos; [done|].
    apply Qltb_ge in Hpos.
    assert (Qltb (scrollY w - lastScrollY s) 0 = true) as ->; [|done].
    apply Qltb_lt. rewrite Qabs_neg in Hd by done. lra.
Qed.

Lemma direction_dead_zone_witness :
  (direction (handleScroll
     {| scrollY := 300.5; innerHeight := 800; scrollHeight := 2400;
        footerTop := None; now := 0 |}
     {| scrollProgress := Fin 0; isWalking := false; direction := -1;
        footerHeight := 0; lastScrollY := 300; walkingTimeout := None |})
   = (-1)%Z) ∧
  (direction (handleScroll
     {| scrollY := 120; innerHeight := 800; scrollHeight := 2400;
        footerTop := None; now := 0 |}
     {| scrollProgress := Fin 0; isWalking := false; direction := 1;
        footerHeight := 0; lastScrollY := 300; walkingTimeout := None |})
   = (-1)%Z).
Proof.
  split.
  - refine (proj1 (direction_dead_zone
      {| scrollY := 300.5; innerHeight := 800; scrollHeight := 2400;
         footerTop := None; now := 0 |}
      {| scrollProgress := Fin 0; isWalking := false; direction := -1;
         footerHeight := 0; lastScrollY := 300; walkingTimeout := None |}) _).
    vm_compute. discriminate.
  - refine (proj2 (direction_dead_zone
      {| scrollY := 120; innerHeight := 800; scrollHeight := 2400;
         footerTop := None; now := 0 |}
      {| scrollProgress := Fin 0; isWalking := false; direction := 1;
         footerHeight := 0; lastScrollY := 300; walkingTimeout := None |}) _).
    vm_compute. reflexivity.
Defined.

End CharacterFacts.

(** ** Control curves *)

Section CurveFacts.
Import Js Curve.
Local Open Scope Q_scope.
Implicit Types (curve rest : list (Q * Q)) (t : Q).

Lemma increasing_cons (b0 b1 : Q) (bs : list Q) :
  increasing (b0 :: b1 :: bs) = true ↔ b0 < b1 ∧ increasing (b1 :: bs) = true.
Proof. cbn [increasing]. by rewrite andb_true_iff, Qltb_lt. Qed.

Lemma increasing_above rest b0 i bi vi :
  increasing (b0 :: rest.*1) = true → rest !! i = Some (bi, vi) → b0 < bi.
Proof.
  revert b0 i. induction rest as [|[b1 v1] rest IH]; intros b0 i Hinc Hi.
  - by rewrite lookup_nil in Hi.
  - cbn [fmap list_fmap fst] in Hinc. apply increasing_cons in Hinc as [Hlt Hinc].
    destruct i as [|i]; simplify_eq/=; [done|].
    pose proof (IH b1 i Hinc Hi). lra.
Qed.

Lemma last_cons_default rest (p : Q * Q) :
  last (p :: rest) = Some (default p (last rest)).
Proof. rewrite last_cons. by destruct (last rest). Qed.

Lemma increasing_adjacent curve i bi vi bj vj :
  increasing curve.*1 = true →
  curve !! i = Some (bi, vi) → curve !! S i = Some (bj, vj) → bi < bj.
Proof.
  revert i. induction curve as [|[b0 v0] rest IH]; intros i Hinc Hi Hj.
  - by rewrite lookup_nil in Hi.
  - destruct i as [|i]; simplify_eq/=.
    + by apply (increasing_above rest _ 0%nat _ vj).
    + apply (IH i); [|done..].
      destruct rest as [|[b1 v1] rest]; [done|].
      cbn [fmap list_fmap fst] in Hinc. by apply increasing_cons in Hinc as [_ ?].
Qed.

Lemma increasing_before_last curve j bj vj bn vn :
  increasing curve.*1 = true →
  curve !! j = Some (bj, vj) → last curve = Some (bn, vn) →
  bj < bn ∨ (bj, vj) = (bn, vn).
Proof.
  revert j bj vj. induction curve as [|[b0 v0] rest IH];
    intros j bj vj Hinc Hj Hlast.
  - by rewrite lookup_nil in Hj.
  - destruct rest as [|[b1 v1] rest].
    + destruct j as [|j]; simplify_eq/=; by right.
    + rewrite last_cons_cons in Hlast.
      cbn [fmap list_fmap fst] in Hinc. apply increasing_cons in Hinc as [Hlt Hinc].
      destruct j as [|j].
      * injection Hj as -> ->. left.
        destruct (IH 0%nat b1 v1 Hinc eq_refl Hlast) as [?|[= <- <-]]; lra.
      * by apply (IH j).
Qed.

(** Above the first breakpoint, and inside the segment numbered [i], the
    search returns the blend of the two values around [t]. *)
Lemma between_segment rest b0 v0 t i bi vi bj vj :
  increasing (b0 :: rest.*1) = true → b0 < t →
  ((b0, v0) :: rest) !! i = Some (bi, vi) →
  ((b0, v0) :: rest) !! S i = Some (bj, vj) →
  bi <= t <= bj →
  between b0 v0 rest t == mix vi vj ((t - bi) / (bj - bi)).
Proof.
  revert b0 v0 i. induction rest as [|[b1 v1] rest IH];
    intros b0 v0 i Hinc Ht Hi Hj [Hlo Hhi].
  - simplify_eq/=.
  - pose proof Hinc as Hinc'. cbn [fmap list_fmap fst] in Hinc'.
    apply increasing_cons in Hinc' as [Hlt Hinc'].
    cbn [between]. destruct i as [|i]; simplify_eq/=.
    + apply Qle_bool_iff in Hhi. by rewrite Hhi.
    + destruct (Qle_bool t b1) eqn:Hb1.
      * apply Qle_bool_iff in Hb1. destruct i as [|i]; simplify_eq/=.
        -- assert (t == bi) as Heq by lra.
           pose proof (increasing_above _ _ _ _ _ Hinc' Hj).
           unfold mix. rewrite Heq. field. split; lra.
        -- pose proof (increasing_above _ _ _ _ _ Hinc' Hi). lra.
      * apply not_true_iff_false in Hb1. rewrite Qle_bool_iff in Hb1.
        apply (IH b1 v1 i); [done|lra|done|done|done].
Qed.

Lemma evaluate_below curve b0 v0 t :
  head curve = Some (b0, v0) → t <= b0 → evaluate curve t = v0.
Proof.
  destruct curve as [|[b0' v0'] rest]; [done|]. intros [= -> ->] Ht.
  cbn [evaluate]. destruct (default (b0, v0) (last rest)) as [bn vn].
  apply Qle_bool_iff in Ht. by rewrite Ht.
Qed.

Lemma evaluate_above curve bn vn t :
  increasing curve.*1 = true → last curve = Some (bn, vn) → bn <= t →
  evaluate curve t = vn.
Proof.
  destruct curve as [|[b0 v0] rest]; [done|]. intros Hinc Hlast Ht.
  pose proof Hlast as Hl. rewrite last_cons_default in Hl. injection Hl as Hl.
  cbn [evaluate]. rewrite Hl. destruct (Qle_bool t b0) eqn:H0.
  - apply Qle_bool_iff in H0.
    destruct (increasing_before_last _ 0%nat b0 v0 bn vn Hinc eq_refl Hlast)
      as [?|?]; simplify_eq; [lra|done].
  - apply Qle_bool_iff in Ht. by rewrite Ht.
Qed.

Lemma evaluate_segment curve i bi vi bj vj t :
  increasing curve.*1 = true →
  curve !! i = Some (bi, vi) → curve !! S i = Some (bj, vj) →
  bi <= t <= bj →
  evaluate curve t == mix vi vj ((t - bi) / (bj - bi)).
Proof.
  intros Hinc Hi Hj [Hlo Hhi].
  pose proof (increasing_adjacent _ _ _ _ _ _ Hinc Hi Hj) as Hij.
  destruct curve as [|[b0 v0] rest]; [done|].
  destruct (last ((b0, v0) :: rest)) as [[bn vn]|] eqn:Hlast;
    [|by rewrite last_cons_default in Hlast].
  unfold mix. destruct (Qle_bool t b0) eqn:H0.
  - apply Qle_bool_iff in H0. rewrite (evaluate_below _ b0 v0) by done.
    destruct i as [|i].
    + injection Hi as -> ->. assert (t == bi) as -> by lra. field. lra.
    + pose proof (increasing_above rest b0 i bi vi Hinc Hi). lra.
  - apply not_true_iff_false in H0. rewrite Qle_bool_iff in H0.
    destruct (Qle_bool bn t) eqn:Hn.
    + apply Qle_bool_iff in Hn. rewrite (evaluate_above _ bn vn) by done.
      destruct (increasing_before_last _ _ _ _ _ _ Hinc Hj Hlast)
        as [?|?]; simplify_eq; [lra|].
      assert (t == bn) as -> by lra. field. lra.
    + pose proof Hlast as Hl. rewrite last_cons_default in Hl. injection Hl as Hl.
      cbn [evaluate]. rewrite Hl.
      assert (Qle_bool t b0 = false) as ->
        by (apply not_true_iff_false; rewrite Qle_bool_iff; lra).
      rewrite Hn. apply (between_segment rest b0 v0 t i); try done. lra.
Qed.

Lemma evaluate_breakpoint curve i bi vi :
  increasing curve.*1 = true → curve !! i = Some (bi, vi) →
  evaluate curve bi == vi.
Proof.
  intros Hinc Hi. destruct (curve !! S i) as [[bj vj]|] eqn:Hj.
  - pose proof (increasing_adjacent _ _ _ _ _ _ Hinc Hi Hj) as Hij.
    rewrite (evaluate_segment curve i bi vi bj vj bi) by (done || lra).
    unfold mix. field. lra.
  - apply lookup_ge_None in Hj. apply lookup_lt_Some in Hi as Hlt.
    rewrite (evaluate_above curve bi vi); [done|done| |lra].
    rewrite last_lookup. by replace (pred (length curve)) with i by lia.
Qed.

(** C2.  On a curve with strictly increasing breakpoints, first point
    [(b0, v0)] and last point [(bn, vn)]: at or below [b0] the value is
    [v0]; at or above [bn] it is [vn]; at a breakpoint [bi] it is [vi];
    and between two adjacent breakpoints it is the linear interpolation of
    their values. *)
Theorem evaluate_control_curve curve b0 v0 bn vn :
  increasing curve.*1 = true →
  head curve = Some (b0, v0) → last curve = Some (bn, vn) →
  (∀ t, t <= b0 → evaluate curve t = v0) ∧
  (∀ t, bn <= t → evaluate curve t = vn) ∧
  (∀ i bi vi, curve !! i = Some (bi, vi) → evaluate curve bi == vi) ∧
  (∀ i bi vi bj vj t,
     curve !! i = Some (bi, vi) → curve !! S i = Some (bj, vj) →
     bi <= t <= bj →
     evaluate curve t == vi + (vj - vi) * ((t - bi) / (bj - bi))).
Proof.
  intros Hinc Hhead Hlast. split_and!.
  - intros t. by apply evaluate_below.
  - intros t. by apply evaluate_above.
  - intros i bi vi. by apply evaluate_breakpoint.
  - intros i bi vi bj vj t. by apply evaluate_segment.
Qed.

Lemma evaluate_control_curve_witness :
  increasing [0; 0.2; 0.8; 1] = true ∧
  (∀ t, t <= 0 → useScrollSection.opacity t = 0) ∧
  (∀ t, 1 <= t → useScrollSection.opacity t = 0) ∧
  useScrollSection.opacity 0.2 == 1 ∧
  useScrollSection.opacity 0.8 == 1 ∧
  (∀ t, 0 <= t <= 0.2 →
     useScrollSection.opacity t == 0 + (1 - 0) * ((t - 0) / (0.2 - 0))).
Proof.
  destruct (evaluate_control_curve
    (zip [0; 0.2; 0.8; 1] [0; 1; 1; 0]) 0 0 1 0 eq_refl eq_refl eq_refl)
    as (Hlow & Hhigh & Hat & Hseg).
  split; [reflexivity|]. split; [exact Hlow|]. split; [exact Hhigh|].
  split; [exact (Hat 1%nat 0.2 1 eq_refl)|].
  split; [exact (Hat 2%nat 0.8 1 eq_refl)|].
  exact (λ t, Hseg 0%nat 0 0 0.2 1 t eq_refl eq_refl).
Defined.

(** The fade curve of the [useScrollSection] hook, at a few points. *)
Example opacity_samples :
  useScrollSection.opacity (-1) == 0 ∧ useScrollSection.opacity 0.1 == 0.5 ∧
  useScrollSection.opacity 0.2 == 1 ∧ useScrollSection.opacity 0.5 == 1 ∧
  useScrollSection.opacity 0.9 == 0.5 ∧ useScrollSection.opacity 2 == 0.
Proof. vm_compute. repeat split. Qed.

(** ** Section composer *)

Lemma contentY_up t :
  SectionWrapper.contentY (SectionWrapper.SectionWrapper "up" t)
  = useTransform t [0; 0.25; 0.75; 1] [80; 0; 0; -80].
Proof. reflexivity. Qed.

Lemma contentY_down t :
  SectionWrapper.contentY (SectionWrapper.SectionWrapper "down" t)
  = useTransform t [0; 0.25; 0.75; 1] [-80; 0; 0; 80].
Proof. reflexivity. Qed.

Lemma contentX_left t :
  SectionWrapper.contentX (SectionWrapper.SectionWrapper "left" t)
  = useTransform t [0; 0.25; 0.75; 1] [80; 0; 0; -80].
Proof. reflexivity. Qed.

Lemma contentX_right t :
  SectionWrapper.contentX (SectionWrapper.SectionWrapper "right" t)
  = useTransform t [0; 0.25; 0.75; 1] [-80; 0; 0; 80].
Proof. reflexivity. Qed.

(** Evaluate a configured curve on its segment numbered [i], from
    [(bi, vi)] to [(bj, vj)]. *)
Ltac on_segment i bi vi bj vj :=
  unfold useTransform;
  rewrite (evaluate_segment _ i bi vi bj vj)
    by first [reflexivity | split; lra];
  unfold mix; field.

Lemma offset_slides (e t : Q) :
  0 <= t <= 1 →
  SectionWrapper.slides e t (useTransform t [0; 0.25; 0.75; 1] [e; 0; 0; - e]).
Proof.
  intros Ht. unfold SectionWrapper.slides. split_and!; intros H.
  - on_segment 0%nat 0 e 0.25 0.
  - on_segment 1%nat 0.25 0 0.75 0.
  - on_segment 2%nat 0.75 0 1 (- e).
Qed.

Lemma offset_none (t : Q) :
  0 <= t <= 1 → useTransform t [0; 0.25; 0.75; 1] [0; 0; 0; 0] == 0.
Proof.
  intros Ht. destruct (Qlt_le_dec t 0.25); [|destruct (Qlt_le_dec t 0.75)].
  - on_segment 0%nat 0 0 0.25 0.
  - on_segment 1%nat 0.25 0 0.75 0.
  - on_segment 2%nat 0.75 0 1 0.
Qed.

(** C9.  For a progress [t] between 0 and 1: the top overlay fades from
    1 at [t = 0] to 0 at [t = 0.15] and stays there, the bottom overlay
    stays at 0 up to [t = 0.85] and fades to 1 at [t = 1]; the content
    opacity is 0 at both edges and 1 from 0.2 to 0.8; the content scale
    goes 0.95, 1 (from 0.2 to 0.8), 0.98; and the content offset along the
    axis of the configured direction slides from 80 or -80 pixels to rest
    and out to the opposite value, the other axis staying at 0. *)
Theorem section_composer_curves (animationDirection : string) (t : Q) :
  0 <= t <= 1 →
  let style := SectionWrapper.SectionWrapper animationDirection in
  (t <= 0.15 → SectionWrapper.blendTopOpacity (style t) == 1 - t / 0.15) ∧
  (0.15 <= t → SectionWrapper.blendTopOpacity (style t) == 0) ∧
  (t <= 0.85 → SectionWrapper.blendBottomOpacity (style t) == 0) ∧
  (0.85 <= t →
     SectionWrapper.blendBottomOpacity (style t) == (t - 0.85) / 0.15) ∧
  (t <= 0.2 → SectionWrapper.contentOpacity (style t) == t / 0.2) ∧
  (0.2 <= t <= 0.8 → SectionWrapper.contentOpacity (style t) == 1) ∧
  (0.8 <= t → SectionWrapper.contentOpacity (style t) == (1 - t) / 0.2) ∧
  (t <= 0.2 →
     SectionWrapper.contentScale (style t) == 0.95 + 0.05 * (t / 0.2)) ∧
  (0.2 <= t <= 0.8 → SectionWrapper.contentScale (style t) == 1) ∧
  (0.8 <= t →
     SectionWrapper.contentScale (style t) == 1 - 0.02 * ((t - 0.8) / 0.2)) ∧
  (animationDirection = "up"%string →
     SectionWrapper.slides 80 t (SectionWrapper.contentY (style t)) ∧
     SectionWrapper.contentX (style t) == 0) ∧
  (animationDirection = "down"%string →
     SectionWrapper.slides (-80) t (SectionWrapper.contentY (style t)) ∧
     SectionWrapper.contentX (style t) == 0) ∧
  (animationDirection = "left"%string →
     SectionWrapper.slides 80 t (SectionWrapper.contentX (style t)) ∧
     SectionWrapper.contentY (style t) == 0) ∧
  (animationDirection = "right"%string →
     SectionWrapper.slides (-80) t (SectionWrapper.contentX (style t)) ∧
     SectionWrapper.contentY (style t) == 0) ∧
  SectionWrapper.blendTopOpacity (style 0) == 1 ∧
  SectionWrapper.blendTopOpacity (style 0.15) == 0 ∧
  SectionWrapper.blendBottomOpacity (style 0.85) == 0 ∧
  SectionWrapper.blendBottomOpacity (style 1) == 1 ∧
  SectionWrapper.contentOpacity (style 0) == 0 ∧
  SectionWrapper.contentOpacity (style 1) == 0 ∧
  SectionWrapper.contentScale (style 0) == 0.95 ∧
  SectionWrapper.contentScale (style 1) == 0.98.
Proof.
  intros Ht style. unfold style.
  cbn [SectionWrapper.SectionWrapper SectionWrapper.blendTopOpacity
       SectionWrapper.blendBottomOpacity SectionWrapper.contentOpacity
       SectionWrapper.contentScale].
  split_and!; try (intros H).
  - on_segment 0%nat 0 1 0.15 0.
  - unfold useTransform. by rewrite (evaluate_above _ 0.15 0).
  - unfold useTransform. by rewrite (evaluate_below _ 0.85 0).
  - on_segment 0%nat 0.85 0 1 1.
  - on_segment 0%nat 0 0 0.2 1.
  - on_segment 1%nat 0.2 1 0.8 1.
  - on_segment 2%nat 0.8 1 1 0.
  - on_segment 0%nat 0 0.95 0.2 1.
  - on_segment 1%nat 0.2 1 0.8 1.
  - on_segment 2%nat 0.8 1 1 0.98.
  - subst. split; [rewrite contentY_up; by apply (offset_slides 80)|].
    by apply offset_none.
  - subst. split; [rewrite contentY_down; by apply (offset_slides (-80))|].
    by apply offset_none.
  - subst. split; [rewrite contentX_left; by apply (offset_slides 80)|].
    by apply offset_none.
  - subst. split; [rewrite contentX_right; by apply (offset_slides (-80))|].
    by apply offset_none.
  - reflexivity.
  - reflexivity.
  - reflexivity.
  - reflexivity.
  - reflexivity.
  - reflexivity.
  - reflexivity.
  - reflexivity.
Qed.

Lemma section_composer_curves_witness :
  0 <= 0.5 <= 1 ∧
  SectionWrapper.contentOpacity (SectionWrapper.SectionWrapper "up" 0.5) == 1 ∧
  SectionWrapper.contentScale (SectionWrapper.SectionWrapper "up" 0.5) == 1 ∧
  SectionWrapper.contentY (SectionWrapper.SectionWrapper "up" 0.5) == 0 ∧
  SectionWrapper.contentX (SectionWrapper.SectionWrapper "up" 0.5) == 0 ∧
  SectionWrapper.blendTopOpacity (SectionWrapper.SectionWrapper "up" 0.5) == 0 ∧
  SectionWrapper.blendBottomOpacity (SectionWrapper.SectionWrapper "up" 0.5) == 0.
Proof.
  assert (0 <= 0.5 <= 1) as Ht by (split; lra).
  destruct (section_composer_curves "up" 0.5 Ht)
    as (_ & Htop & Hbottom & _ & _ & Hopacity & _ & _ & Hscale & _ & Hup & _).
  destruct (Hup eq_refl) as [(_ & Hrest & _) Hx].
  split; [exact Ht|]. split; [apply Hopacity; split; lra|].
  split; [apply Hscale; split; lra|]. split; [apply Hrest; split; lra|].
  split; [exact Hx|]. split; [apply Htop; lra | apply Hbottom; lra].
Defined.

End CurveFacts.

(** ** Hash navigator *)

Section HashNavigationFacts.
Import HashNavigation.
Implicit Types (env : Env) (l : Loop) (id hash : string).

Lemma turn_stuck env l n : tick env l = None → turn n env l = l.
Proof. intros H. destruct n; [done|]. cbn [turn]. by rewrite H. Qed.

Lemma turn_add env l a b : turn (a + b) env l = turn b env (turn a env l).
Proof.
  revert l. induction a as [|a IH]; intros l; [done|].
  cbn [Nat.add turn]. destruct (tick env l) as [l'|] eqn:Ht; [apply IH|].
  by rewrite turn_stuck.
Qed.

Lemma turn_S env l n : turn (S n) env l = turn 1 env (turn n env l).
Proof. rewrite <- Nat.add_1_r. apply turn_add. Qed.

Lemma failedLookups_S env start id j :
  failedLookups env start id (S j)
  = failedLookups env start id j ++ [GetElementById (attemptTime env start j) id false].
Proof. unfold failedLookups. by rewrite seq_S, fmap_app. Qed.

Lemma failedLookups_no_scroll env start id j :
  filter isScroll (failedLookups env start id j) = [].
Proof.
  unfold failedLookups. induction (seq 0 j) as [|k ks IH]; [done|].
  cbn [fmap list_fmap]. rewrite filter_cons_False by (by intros []). exact IH.
Qed.

Lemma pending_due env start j :
  let time := match j with O => start | S i => attemptTime env start i end in
  Nat.max time (time + 100) + lateness env j = attemptTime env start j.
Proof. destruct j; cbn [attemptTime]; lia. Qed.

(** No attempt runs sooner than the initial delay and one interval per
    earlier attempt allow. *)
Lemma attemptTime_lower_bound env start k :
  start + 100 + k * 100 ≤ attemptTime env start k.
Proof. induction k as [|k IH]; cbn [attemptTime]; lia. Qed.

(** With punctual timers the attempts run every 100 ms from [start + 100]. *)
Lemma attemptTime_punctual env start k :
  (∀ n, lateness env n = 0) → attemptTime env start k = start + 100 + k * 100.
Proof.
  intros Hp. induction k as [|k IH]; cbn [attemptTime]; rewrite Hp; lia.
Qed.

Lemma handleHashNavigation_pending env start hash :
  hash ≠ EmptyString →
  handleHashNavigation hash (idle start) = pending env start (substring1 hash) 0.
Proof. destruct hash; [done|]. reflexivity. Qed.

(** A missed attempt with retries left schedules the next attempt. *)
Lemma tick_missed env start id j :
  j < 10 → document env (attemptTime env start j) id = false →
  tick env (pending env start id j) = Some (pending env start id (S j)).
Proof.
  intros Hj Habsent. unfold tick, pending.
  cbn [timers clock fired log uncaught]. rewrite (pending_due env start j).
  cbn [run attemptScroll getElementById clock]. rewrite Habsent.
  apply Nat.ltb_lt in Hj. rewrite Hj.
  unfold setTimeout, record. cbn [timers clock fired log uncaught enqueue].
  by rewrite Nat.add_1_r, <- failedLookups_S.
Qed.

(** The missed attempt numbered 10 schedules nothing. *)
Lemma tick_gave_up env start id :
  document env (attemptTime env start 10) id = false →
  tick env (pending env start id 10)
  = Some (settled env start 10 (failedLookups env start id 11)).
Proof.
  intros Habsent. unfold tick, pending.
  cbn [timers clock fired log uncaught]. rewrite (pending_due env start 10).
  cbn [run attemptScroll getElementById clock]. rewrite Habsent.
  unfold record. cbn [Nat.ltb Nat.leb timers clock fired log uncaught].
  by rewrite <- failedLookups_S.
Qed.

(** An attempt that finds the element scrolls to it and schedules nothing. *)
Lemma tick_found env start id j :
  document env (attemptTime env start j) id = true →
  tick env (pending env start id j)
  = Some (settled env start j
      (failedLookups env start id j
       ++ [GetElementById (attemptTime env start j) id true;
           ScrollIntoView (attemptTime env start j) id])).
Proof.
  intros Hpresent. unfold tick, pending.
  cbn [timers clock fired log uncaught]. rewrite (pending_due env start j).
  cbn [run attemptScroll getElementById clock]. rewrite Hpresent.
  unfold scrollIntoView, record. cbn [timers clock fired log uncaught].
  by rewrite <- app_assoc.
Qed.

Lemma tick_settled env start j events :
  tick env (settled env start j events) = None.
Proof. reflexivity. Qed.

(** As long as the attempts miss, [j] turns of the loop run [j] attempts. *)
Lemma turn_missed env start id j :
  j ≤ 10 → (∀ k, k < j → document env (attemptTime env start k) id = false) →
  turn j env (pending env start id 0) = pending env start id j.
Proof.
  induction j as [|j IH]; intros Hj Habsent; [done|].
  rewrite turn_S, IH by (lia || auto).
  cbn [turn]. rewrite tick_missed by (lia || auto). reflexivity.
Qed.

(** If the element is there for the attempt numbered [j] and for none
    before, [j + 1] turns end the navigation with one scroll. *)
Lemma turn_found env start id j :
  j ≤ 10 → (∀ k, k < j → document env (attemptTime env start k) id = false) →
  document env (attemptTime env start j) id = true →
  turn (S j) env (pending env start id 0)
  = settled env start j
      (failedLookups env start id j
       ++ [GetElementById (attemptTime env start j) id true;
           ScrollIntoView (attemptTime env start j) id]).
Proof.
  intros Hj Habsent Hpresent. rewrite turn_S, turn_missed by done.
  cbn [turn]. by rewrite tick_found.
Qed.

(** If every attempt misses, 11 turns end the navigation without one. *)
Lemma turn_gave_up env start id :
  (∀ k, k ≤ 10 → document env (attemptTime env start k) id = false) →
  turn 11 env (pending env start id 0)
  = settled env start 10 (failedLookups env start id 11).
Proof.
  intros Habsent. rewrite turn_S, turn_missed by (lia || (intros; apply Habsent; lia)).
  cbn [turn]. by rewrite tick_gave_up by (apply Habsent; lia).
Qed.

Lemma turn_settled env start j events n :
  turn n env (settled env start j events) = settled env start j events.
Proof. by apply turn_stuck. Qed.

Lemma filter_lookups_failed env start id j :
  filter isLookup (failedLookups env start id j) = failedLookups env start id j.
Proof.
  unfold failedLookups. induction (seq 0 j) as [|k ks IH]; [done|].
  cbn [fmap list_fmap]. rewrite filter_cons_True by done. by rewrite IH.
Qed.

(** C3.  When the element never appears, the navigation makes 11 lookups,
    the delayed first attempt and 10 retries, each at least 100 ms after
    the one before (exactly 100 ms with punctual timers, the last one
    1100 ms after the call); after them no timer is pending, so that
    further turns of the loop change nothing; no scroll was asked for and
    no exception escaped. *)
Theorem exhausted_retries_abandoned_silently env start hash :
  hash ≠ EmptyString →
  (∀ time, document env time (substring1 hash) = false) →
  let begun := handleHashNavigation hash (idle start) in
  let final := turn 11 env begun in
  log final = failedLookups env start (substring1 hash) 11 ∧
  length (filter isLookup (log final)) = 11 ∧
  filter isScroll (log final) = [] ∧
  uncaught final = [] ∧
  timers final = [] ∧
  (∀ n, n < 11 → timers (turn n env begun) ≠ []) ∧
  (∀ n, turn (11 + n) env begun = final) ∧
  start + 1100 ≤ clock final ∧
  ((∀ n, lateness env n = 0) → clock final = start + 1100).
Proof.
  intros Hhash Habsent begun final. unfold final, begun.
  rewrite (handleHashNavigation_pending env) by done.
  rewrite turn_gave_up by (intros; apply Habsent).
  cbn [settled log uncaught timers clock].
  split_and!.
  - reflexivity.
  - rewrite filter_lookups_failed. unfold failedLookups.
    by rewrite length_fmap, length_seq.
  - apply failedLookups_no_scroll.
  - reflexivity.
  - reflexivity.
  - intros n Hn. rewrite turn_missed by (lia || (intros; apply Habsent)). done.
  - intros n. rewrite turn_add, turn_gave_up by (intros; apply Habsent).
    apply turn_settled.
  - pose proof (attemptTime_lower_bound env start 10). lia.
  - intros Hp. rewrite attemptTime_punctual by done. lia.
Qed.

Lemma exhausted_retries_abandoned_silently_witness :
  let env := {| document := λ _ _, false; lateness := λ _, 0 |} in
  let final := turn 11 env (handleHashNavigation "#missing" (idle 0)) in
  length (filter isLookup (log final)) = 11 ∧
  filter isScroll (log final) = [] ∧
  uncaught final = [] ∧
  timers final = [] ∧
  turn 12 env (handleHashNavigation "#missing" (idle 0)) = final ∧
  clock final = 1100.
Proof.
  intros env final.
  destruct (exhausted_retries_abandoned_silently env 0 "#missing")
    as (_ & Hlookups & Hscroll & Hexn & Htimers & _ & Hstop & _ & Hclock);
    [discriminate | reflexivity |].
  split; [exact Hlookups|]. split; [exact Hscroll|]. split; [exact Hexn|].
  split; [exact Htimers|]. split; [exact (Hstop 1)|].
  exact (Hclock (λ _, eq_refl)).
Defined.

(** C4.  With hash "#about", the element missing at the first attempt and
    at the first three retries and there at the fourth retry: the
    navigation asks for exactly one scroll, to "about", at the time of
    the fourth retry, which is no sooner than the initial delay and three
    (indeed four) retry intervals after the call; no scroll is asked for
    before; and afterwards no timer is pending and further turns of the
    loop change nothing. *)
Theorem found_on_fourth_retry_scrolls_once env start :
  (∀ k, k < 4 → document env (attemptTime env start k) "about" = false) →
  document env (attemptTime env start 4) "about" = true →
  let begun := handleHashNavigation "#about" (idle start) in
  let final := turn 5 env begun in
  filter isScroll (log final)
    = [ScrollIntoView (attemptTime env start 4) "about"] ∧
  start + 100 + 3 * 100 ≤ attemptTime env start 4 ∧
  start + 100 + 4 * 100 ≤ attemptTime env start 4 ∧
  (∀ n, n < 5 → filter isScroll (log (turn n env begun)) = []) ∧
  length (filter isLookup (log final)) = 5 ∧
  timers final = [] ∧
  uncaught final = [] ∧
  (∀ n, turn (5 + n) env begun = final).
Proof.
  intros Habsent Hpresent begun final. unfold final, begun.
  rewrite (handleHashNavigation_pending env) by done.
  cbn [substring1]. rewrite turn_found by (done || lia).
  cbn [settled log uncaught timers clock].
  pose proof (attemptTime_lower_bound env start 4).
  split_and!.
  - rewrite filter_app, failedLookups_no_scroll. reflexivity.
  - lia.
  - lia.
  - intros n Hn. rewrite turn_missed by (lia || (intros; apply Habsent; lia)).
    apply failedLookups_no_scroll.
  - rewrite filter_app, filter_lookups_failed. unfold failedLookups.
    rewrite length_app, length_fmap, length_seq. reflexivity.
  - reflexivity.
  - reflexivity.
  - intros n. rewrite turn_add, turn_found by (done || lia).
    apply turn_settled.
Qed.

Lemma found_on_fourth_retry_scrolls_once_witness :
  let env := {| document := λ time id, (500 <=? time) && String.eqb id "about";
                lateness := λ _, 0 |} in
  let final := turn 5 env (handleHashNavigation "#about" (idle 0)) in
  filter isScroll (log final) = [ScrollIntoView 500 "about"] ∧
  length (filter isLookup (log final)) = 5 ∧
  timers final = [] ∧
  turn 6 env (handleHashNavigation "#about" (idle 0)) = final.
Proof.
  intros env final.
  destruct (found_on_fourth_retry_scrolls_once env 0)
    as (Hscroll & _ & _ & _ & Hlookups & Htimers & _ & Hstop).
  - intros k Hk. do 4 (destruct k as [|k]; [reflexivity|]). lia.
  - reflexivity.
  - split; [exact Hscroll|]. split; [exact Hlookups|].
    split; [exact Htimers | exact (Hstop 1)].
Defined.

End HashNavigationFacts.

(** * Further properties of the code *)

(** ** Character walker: progress value, events, rendered position *)

Section CharacterViewFacts.
Import Js ScrollProgressCharacter ScrollProgressCharacterView.
Local Open Scope Q_scope.

Lemma progress_finite (y m : Q) :
  0 < m →
  progress y m
  = Fin (if Qle_bool (y / m * 100) 0 then 0
         else if Qle_bool (y / m * 100) 100 then y / m * 100 else 100).
Proof.
  intros Hm. unfold progress. cbn [div].
  assert (Qeq_bool m 0 = false) as ->.
  { apply not_true_iff_false. rewrite Qeq_bool_iff. lra. }
  cbn [mul Math_max]. destruct (Qle_bool (y / m * 100) 0) eqn:H0; cbn [Math_min].
  - reflexivity.
  - by destruct (Qle_bool (y / m * 100) 100).
Qed.

(** X1.  On a page with a scrollable distance the stored progress is the
    percentage scrolled: [scrollY / maxScroll * 100] inside the range, 0
    at or above the top, 100 at or past the bottom. *)
Theorem scroll_progress_value (w : Window) (s : State) :
  0 < scrollHeight w - innerHeight w →
  ∃ p, scrollProgress (handleScroll w s) = Fin p ∧
    (scrollY w <= 0 → p == 0) ∧
    (0 <= scrollY w <= scrollHeight w - innerHeight w →
       p == scrollY w / (scrollHeight w - innerHeight w) * 100) ∧
    (scrollHeight w - innerHeight w <= scrollY w → p == 100).
Proof.
  intros Hm. cbn [handleScroll scrollProgress].
  set (m := scrollHeight w - innerHeight w) in *. set (y := scrollY w).
  rewrite progress_finite by done. eexists. split; [reflexivity|].
  assert (y / m * m == y) as Hq by (field; lra).
  set (q := y / m) in *.
  destruct (Qle_bool (q * 100) 0) eqn:H0.
  - apply Qle_bool_iff in H0. split_and!; intros; [done| |]; nra.
  - apply not_true_iff_false in H0. rewrite Qle_bool_iff in H0.
    destruct (Qle_bool (q * 100) 100) eqn:H100.
    + apply Qle_bool_iff in H100. split_and!; intros; [|done|]; nra.
    + apply not_true_iff_false in H100. rewrite Qle_bool_iff in H100.
      split_and!; intros; [| |done]; nra.
Qed.

Lemma scroll_progress_value_witness :
  ∃ p, scrollProgress (handleScroll
         {| scrollY := 400; innerHeight := 800; scrollHeight := 2400;
            footerTop := None; now := 0 |} mount) = Fin p ∧ p == 25.
Proof.
  destruct (scroll_progress_value
    {| scrollY := 400; innerHeight := 800; scrollHeight := 2400;
       footerTop := None; now := 0 |} mount) as (p & Hp & _ & Hin & _).
  - reflexivity.
  - exists p. split; [exact Hp|]. rewrite Hin; [reflexivity|].
    split; discriminate.
Defined.

Lemma handleScroll_invariant (w : Window) (s : State) :
  invariant s → invariant (handleScroll w s).
Proof.
  intros (Hdir & Hfoot & Hwalk). unfold invariant.
  cbn [handleScroll direction footerHeight isWalking walkingTimeout].
  destruct (Qltb 1 (Qabs (scrollY w - lastScrollY s))) eqn:Hmoved.
  - split_and!.
    + destruct (Qltb 0 (scrollY w - lastScrollY s)); [by left | by right].
    + destruct (footerTop w) as [top|]; [|done]. cbn zeta.
      destruct (Qle_bool (innerHeight w - top) 0) eqn:Hv; [lra|].
      apply not_true_iff_false in Hv. rewrite Qle_bool_iff in Hv. lra.
    + by eexists.
  - split_and!; [done| |done].
    destruct (footerTop w) as [top|]; [|done]. cbn zeta.
    destruct (Qle_bool (innerHeight w - top) 0) eqn:Hv; [lra|].
    apply not_true_iff_false in Hv. rewrite Qle_bool_iff in Hv. lra.
Qed.

Lemma step_invariant (s : State) (e : event) : invariant s → invariant (step s e).
Proof.
  intros Hinv. destruct e as [w|w|time]; cbn [step];
    [by apply handleScroll_invariant..|].
  destruct (walkingTimeout s) as [due|]; [|done].
  destruct (due <=? time)%nat; [|done].
  destruct Hinv as (Hdir & Hfoot & _). by split_and!.
Qed.

(** X2.  From the mount on, whatever scroll, resize and timer events
    arrive: the sprite's direction is 1 or -1, the footer clearance is not
    negative, and whenever the character is walking the timer that stops
    it is pending. *)
Theorem character_invariants (w : Window) (events : list event) :
  invariant (steps (mounted w) events).
Proof.
  assert (invariant (mounted w)) as Hinit.
  { apply handleScroll_invariant. split_and!; [by left|done|done]. }
  revert Hinit. generalize (mounted w). unfold steps.
  induction events as [|e events IH]; intros s Hs; [done|].
  cbn [fold_left]. apply IH. by apply step_invariant.
Qed.

(** X3.  A scroll of more than one pixel starts the walk and replaces
    whatever timer was pending by one due 100 ms later: the walk goes on
    until then and stops when that timer comes due. *)
Theorem walking_debounced (w : Window) (s : State) (time : nat) :
  1 < Qabs (scrollY w - lastScrollY s) →
  isWalking (handleScroll w s) = true ∧
  walkingTimeout (handleScroll w s) = Some (now w + 100)%nat ∧
  ((time < now w + 100)%nat →
     step (handleScroll w s) (TimerDue time) = handleScroll w s) ∧
  ((now w + 100 ≤ time)%nat →
     isWalking (step (handleScroll w s) (TimerDue time)) = false ∧
     walkingTimeout (step (handleScroll w s) (TimerDue time)) = None).
Proof.
  intros Hmoved. apply Qltb_lt in Hmoved.
  cbn [step handleScroll isWalking walkingTimeout]. rewrite Hmoved.
  split_and!; [done|done| |].
  - intros Ht. apply Nat.leb_gt in Ht. by rewrite Ht.
  - intros Ht. apply Nat.leb_le in Ht. by rewrite Ht.
Qed.

Lemma walking_debounced_witness :
  isWalking (handleScroll
    {| scrollY := 300; innerHeight := 800; scrollHeight := 2400;
       footerTop := None; now := 1000 |}
    {| scrollProgress := Fin 0; isWalking := true; direction := 1;
       footerHeight := 0; lastScrollY := 200;
       walkingTimeout := Some 1050%nat |}) = true ∧
  isWalking (step (handleScroll
    {| scrollY := 300; innerHeight := 800; scrollHeight := 2400;
       footerTop := None; now := 1000 |}
    {| scrollProgress := Fin 0; isWalking := true; direction := 1;
       footerHeight := 0; lastScrollY := 200;
       walkingTimeout := Some 1050%nat |}) (TimerDue 1060)) = true.
Proof.
  destruct (walking_debounced
    {| scrollY := 300; innerHeight := 800; scrollHeight := 2400;
       footerTop := None; now := 1000 |}
    {| scrollProgress := Fin 0; isWalking := true; direction := 1;
       footerHeight := 0; lastScrollY := 200;
       walkingTimeout := Some 1050%nat |} 1060) as (Hwalk & _ & Hearly & _).
  - reflexivity.
  - split; [exact Hwalk|]. rewrite Hearly; [exact Hwalk|]. cbn [now]. lia.
Defined.

(** X4.  Handling the same window twice is handling it once: an event
    that leaves the scroll offset where it was (a resize, say) changes
    neither direction nor walking state nor timer. *)
Theorem handleScroll_idempotent (w : Window) (s : State) :
  handleScroll w (handleScroll w s) = handleScroll w s.
Proof.
  unfold handleScroll at 1. cbn [lastScrollY handleScroll].
  assert (Qltb 1 (Qabs (scrollY w - scrollY w)) = false) as ->.
  { apply Qltb_ge. apply Qabs_Qle_condition. split; lra. }
  unfold handleScroll. cbn [isWalking direction footerHeight walkingTimeout].
  f_equal. by destruct (footerTop w).
Qed.

(** X5.  With a progress between 0 and 100 and a viewport at least as
    wide as the character, the left offset is that share of the free
    width, so the character lies inside the viewport. *)
Theorem character_stays_in_viewport (innerWidth : Q) (s : State) :
  within 0 100 (scrollProgress s) → 56 <= innerWidth →
  ∃ p left, scrollProgress s = Fin p ∧
    getHorizontalPosition (Some innerWidth) s = Px (Fin left) ∧
    left == p / 100 * (innerWidth - 56) ∧
    0 <= left ∧ left + 56 <= innerWidth.
Proof.
  intros Hp Hw. unfold getHorizontalPosition, characterWidth.
  destruct (scrollProgress s) as [p| | |]; cbn [within] in Hp; try done.
  exists p. eexists. split; [reflexivity|]. cbn [div].
  assert (Qeq_bool 100 0 = false) as -> by reflexivity. cbn [mul].
  split; [reflexivity|]. split; [reflexivity|].
  assert (p / 100 == p * (1 # 100)) as -> by field. split; nra.
Qed.

Lemma character_stays_in_viewport_witness :
  ∃ p left, scrollProgress (mounted
      {| scrollY := 400; innerHeight := 800; scrollHeight := 2400;
         footerTop := None; now := 0 |}) = Fin p ∧
    getHorizontalPosition (Some 1280) (mounted
      {| scrollY := 400; innerHeight := 800; scrollHeight := 2400;
         footerTop := None; now := 0 |}) = Px (Fin left) ∧
    left == p / 100 * (1280 - 56) ∧ 0 <= left ∧ left + 56 <= 1280.
Proof.
  apply character_stays_in_viewport; [|discriminate].
  vm_compute. split; discriminate.
Defined.

(** X6.  On a page that fits the viewport, at scroll offset 0, the left
    offset handed to the style is [NaN] pixels, whatever the viewport
    width. *)
Theorem horizontal_position_nan (w : Window) (s : State) (innerWidth : option Q) :
  scrollY w == 0 → scrollHeight w - innerHeight w == 0 →
  getHorizontalPosition innerWidth (handleScroll w s) = Px NaN.
Proof.
  intros Hy Hm. unfold getHorizontalPosition.
  by rewrite scroll_progress_nan.
Qed.

Lemma horizontal_position_nan_witness :
  getHorizontalPosition (Some 1280) (mounted
    {| scrollY := 0; innerHeight := 800; scrollHeight := 800;
       footerTop := None; now := 0 |}) = Px NaN.
Proof. apply horizontal_position_nan; reflexivity. Defined.

(** X7.  After an event on a page with a footer the bottom offset is the
    part of the footer inside the viewport, [innerHeight - footerTop] when
    the footer's top is above the viewport's bottom edge and 0 otherwise;
    on a page without footer the event leaves the bottom offset alone. *)
Theorem bottom_position_above_footer (w : Window) (s : State) :
  (∀ top, footerTop w = Some top →
     ∃ bottom, getBottomPosition (handleScroll w s) = Px (Fin bottom) ∧
       0 <= bottom ∧
       (top < innerHeight w → bottom == innerHeight w - top) ∧
       (innerHeight w <= top → bottom == 0)) ∧
  (footerTop w = None →
     getBottomPosition (handleScroll w s) = getBottomPosition s).
Proof.
  unfold getBottomPosition. cbn [handleScroll footerHeight]. split.
  - intros top ->. cbn zeta.
    destruct (Qle_bool (innerHeight w - top) 0) eqn:Hv.
    + apply Qle_bool_iff in Hv. exists 0. cbn. split; [done|].
      split; [lra|]. split; intros; lra.
    + apply not_true_iff_false in Hv. rewrite Qle_bool_iff in Hv.
      assert (Qltb 0 (innerHeight w - top) = true) as -> by (apply Qltb_lt; lra).
      eexists. split; [reflexivity|]. split; [lra|]. split; intros; lra.
  - by intros ->.
Qed.

Lemma bottom_position_above_footer_witness :
  ∃ bottom, getBottomPosition (handleScroll
      {| scrollY := 1600; innerHeight := 800; scrollHeight := 2400;
         footerTop := Some 650; now := 0 |} mount) = Px (Fin bottom) ∧
    bottom == 150.
Proof.
  destruct (proj1 (bottom_position_above_footer
    {| scrollY := 1600; innerHeight := 800; scrollHeight := 2400;
       footerTop := Some 650; now := 0 |} mount) 650 eq_refl)
    as (bottom & Hb & _ & Hin & _).
  exists bottom. split; [exact Hb|]. rewrite Hin; reflexivity.
Defined.

End CharacterViewFacts.

(** ** Masonry distributor: balance, column counts on screen, FAQ keys *)

Section MasonryFurtherFacts.
Import Faq.

Lemma div_mod_succ (m cols : nat) :
  0 < cols →
  (S (m mod cols) < cols ∧ S m / cols = m / cols ∧ S m mod cols = S (m mod cols))
  ∨ (S (m mod cols) = cols ∧ S m / cols = S (m / cols) ∧ S m mod cols = 0).
Proof.
  intros Hc. pose proof (Nat.div_mod_eq m cols) as Hm.
  pose proof (Nat.mod_upper_bound m cols ltac:(lia)) as Hr.
  destruct (decide (S (m mod cols) < cols)) as [Hlt|Hge]; [left|right].
  - split_and!; [done| |]; symmetry.
    + apply (Nat.div_unique _ _ _ (S (m mod cols))); lia.
    + apply (Nat.mod_unique _ _ (m / cols)); lia.
  - split_and!; [lia| |]; symmetry.
    + apply (Nat.div_unique _ _ _ 0); lia.
    + apply (Nat.mod_unique _ _ (S (m / cols))); lia.
Qed.

(** How many of the indices below [m] fall in the class of column [c]. *)
Lemma class_count_succ (m cols c : nat) :
  c < cols →
  S m / cols + (if decide (c < S m mod cols) then 1 else 0)
  = m / cols + (if decide (c < m mod cols) then 1 else 0)
    + (if decide (m mod cols = c) then 1 else 0).
Proof.
  intros Hc.
  destruct (div_mod_succ m cols ltac:(lia)) as [(Hlt & -> & ->)|(Heq & -> & ->)];
    repeat case_decide; lia.
Qed.

Lemma class_length {A : Type} (cols c idx : nat) (items : list A) :
  c < cols →
  length (filter (inColumn cols c) (withIndex idx items))
    + (idx / cols + (if decide (c < idx mod cols) then 1 else 0))
  = (idx + length items) / cols
    + (if decide (c < (idx + length items) mod cols) then 1 else 0).
Proof.
  intros Hc. revert idx. induction items as [|x items IH]; intros idx.
  - cbn [withIndex length]. rewrite filter_nil, Nat.add_0_r. reflexivity.
  - cbn [withIndex length]. specialize (IH (S idx)).
    replace (idx + S (length items)) with (S idx + length items) by lia.
    rewrite <- IH, class_count_succ by done.
    destruct (decide (idx mod cols = c)) as [Heq|Hne].
    + rewrite filter_cons_True by exact Heq. cbn [length]. lia.
    + rewrite filter_cons_False by exact Hne. lia.
Qed.

(** X8.  The columns are balanced: with [n] items, column [c] holds
    [n / cols] of them, and one more when [c < n mod cols]; hence a column
    is never longer than a column to its left, and never shorter by more
    than one item. *)
Theorem masonry_columns_balanced {A : Type} (items : list A) (cols : nat) :
  0 < cols →
  ∃ arr, columns items cols = Some arr ∧
    (∀ c col, arr !! c = Some col →
       length col
       = length items / cols + (if decide (c < length items mod cols) then 1 else 0)) ∧
    (∀ c c' col col', arr !! c = Some col → arr !! c' = Some col' → c ≤ c' →
       length col' ≤ length col ≤ S (length col')).
Proof.
  intros Hc. eexists. split; [by apply columns_closed_form|].
  assert (∀ c col,
    ((λ c, filter (inColumn cols c) (withIndex 0 items)) <$> seq 0 cols) !! c
      = Some col →
    length col
    = length items / cols + (if decide (c < length items mod cols) then 1 else 0))
    as Hlen.
  { intros c col Hcol. rewrite list_lookup_fmap in Hcol.
    destruct (seq 0 cols !! c) as [c0|] eqn:Hseq; [|done].
    apply lookup_seq in Hseq as [-> Hlt]. injection Hcol as <-.
    pose proof (class_length cols c 0 items Hlt) as Hcount.
    rewrite Nat.Div0.div_0_l, Nat.Div0.mod_0_l in Hcount.
    rewrite decide_False in Hcount by lia. cbn [Nat.add] in Hcount. lia. }
  split; [exact Hlen|].
  intros c c' col col' Hcol Hcol' Hle.
  rewrite (Hlen _ _ Hcol), (Hlen _ _ Hcol'). repeat case_decide; lia.
Qed.

Lemma masonry_columns_balanced_witness :
  ∃ arr, columns (seq 0 10) 3 = Some arr ∧
    length <$> arr = [4; 3; 3].
Proof.
  destruct (masonry_columns_balanced (seq 0 10) 3) as (arr & Harr & _); [lia|].
  exists arr. split; [exact Harr|].
  vm_compute in Harr. injection Harr as <-. reflexivity.
Defined.

(** X9.  The memo cannot throw on screen: the column count computed at
    mount (with or without a window) and in the resize listener is
    positive, so every item finds its column.  With no column at all the
    memo throws as soon as there is an item to place. *)
Theorem masonry_never_throws_on_screen {A : Type} (items : list A)
    (mountWidth : option Z) (resizeWidth : Z) :
  is_Some (columns items (initialCols mountWidth)) ∧
  is_Some (columns items (onResize resizeWidth)) ∧
  (columns items 0 = None ↔ items ≠ []).
Proof.
  split_and!.
  - rewrite columns_closed_form; [by eexists|].
    unfold initialCols. destruct mountWidth as [w|]; [|lia].
    repeat case_match; lia.
  - rewrite columns_closed_form; [by eexists|].
    unfold onResize. repeat case_match; lia.
  - destruct items as [|x items]; [|done]. by split.
Qed.

Lemma masonry_never_throws_on_screen_witness :
  is_Some (columns (seq 0 10) (initialCols None)) ∧
  is_Some (columns (seq 0 10) (onResize 320)) ∧
  columns (seq 0 10) 0 = None.
Proof.
  destruct (masonry_never_throws_on_screen (seq 0 10) None 320)
    as (Hmount & Hresize & Hzero).
  split; [exact Hmount|]. split; [exact Hresize|].
  apply Hzero. discriminate.
Defined.

(** X10.  In the FAQ grid every placed question carries as key and as
    index its position in [faqData], with the question and answer of the
    entry at that position (the [id] of the entry plays no part); the
    React keys inside a column are pairwise distinct. *)
Theorem faq_keys_are_positions (faqData : list FaqQuestions.Entry) (cols : nat) :
  0 < cols →
  ∃ arr, columns (FaqQuestions.questions faqData) cols = Some arr ∧
    ∀ c col, arr !! c = Some col →
      NoDup col.*2 ∧
      ∀ item index, (item, index) ∈ col →
        FaqQuestions.key item = index ∧
        ∃ entry, faqData !! index = Some entry ∧
          FaqQuestions.q item = FaqQuestions.question entry ∧
          FaqQuestions.a item = FaqQuestions.answer entry.
Proof.
  intros Hc. eexists. split; [by apply columns_closed_form|].
  intros c col Hcol. rewrite list_lookup_fmap in Hcol.
  destruct (seq 0 cols !! c) as [c0|] eqn:Hseq; [|done].
  injection Hcol as <-. split.
  - eapply sublist_NoDup; [|apply fmap_sublist, sublist_filter].
    rewrite withIndex_snd. apply NoDup_seq.
  - intros item index Hin. apply list_elem_of_filter in Hin as [_ Hin].
    apply withIndex_elem in Hin as [_ Hin]. rewrite Nat.sub_0_r in Hin.
    unfold FaqQuestions.questions in Hin.
    apply list_lookup_imap_Some in Hin as (entry & Hentry & ->).
    split; [done|]. by exists entry.
Qed.

Lemma faq_keys_are_positions_witness :
  ∃ arr,
    columns (FaqQuestions.questions
      [ {| FaqQuestions.id := 1; FaqQuestions.question := "What is MERAKI?";
           FaqQuestions.answer := "The annual technical festival." |};
        {| FaqQuestions.id := 2; FaqQuestions.question := "When is MERAKI 2026?";
           FaqQuestions.answer := "February 5-7, 2026." |} ]) 3 = Some arr ∧
    (λ col, FaqQuestions.key <$> col.*1) <$> arr = [[0]; [1]; []].
Proof.
  destruct (faq_keys_are_positions
    [ {| FaqQuestions.id := 1; FaqQuestions.question := "What is MERAKI?";
         FaqQuestions.answer := "The annual technical festival." |};
      {| FaqQuestions.id := 2; FaqQuestions.question := "When is MERAKI 2026?";
         FaqQuestions.answer := "February 5-7, 2026." |} ] 3)
    as (arr & Harr & _); [lia|].
  exists arr. split; [exact Harr|].
  vm_compute in Harr. injection Harr as <-. reflexivity.
Defined.

End MasonryFurtherFacts.

(** ** Hash navigator: any document, and how late the scroll can be *)

Section HashNavigationFurtherFacts.
Import HashNavigation.
Implicit Types (env : Env) (l : Loop) (id hash : string).

(** Among the first [n] attempts either none finds the element or there
    is a first one that does. *)
Lemma first_found (found : nat → bool) (n : nat) :
  (∀ k, k < n → found k = false)
  ∨ (∃ j, j < n ∧ found j = true ∧ ∀ k, k < j → found k = false).
Proof.
  induction n as [|n [Hnone|(j & Hj & Hfound & Hfirst)]].
  - left. intros k Hk. lia.
  - destruct (found n) eqn:Hn.
    + right. exists n. split_and!; [lia|done|done].
    + left. intros k Hk. destruct (decide (k = n)) as [->|Hne]; [done|].
      apply Hnone. lia.
  - right. exists j. split_and!; [lia|done|done].
Qed.

(** Eleven turns are enough whichever attempt finds the element. *)
Lemma turn_eleven_found env start id j :
  j ≤ 10 → (∀ k, k < j → document env (attemptTime env start k) id = false) →
  document env (attemptTime env start j) id = true →
  turn 11 env (pending env start id 0)
  = settled env start j
      (failedLookups env start id j
       ++ [GetElementById (attemptTime env start j) id true;
           ScrollIntoView (attemptTime env start j) id]).
Proof.
  intros Hj Habsent Hpresent.
  replace 11 with (S j + (10 - j)) by lia.
  rewrite turn_add, turn_found by done. apply turn_settled.
Qed.

Lemma found_log_scrolls env start id j :
  filter isScroll
    (failedLookups env start id j
     ++ [GetElementById (attemptTime env start j) id true;
         ScrollIntoView (attemptTime env start j) id])
  = [ScrollIntoView (attemptTime env start j) id].
Proof. by rewrite filter_app, failedLookups_no_scroll. Qed.

Lemma found_log_lookups env start id j :
  length (filter isLookup
    (failedLookups env start id j
     ++ [GetElementById (attemptTime env start j) id true;
         ScrollIntoView (attemptTime env start j) id]))
  = S j.
Proof.
  rewrite filter_app, filter_lookups_failed. unfold failedLookups.
  rewrite length_app, length_fmap, length_seq.
  rewrite filter_cons_True by done. rewrite filter_cons_False by (by intros []).
  rewrite filter_nil. cbn [length]. lia.
Qed.

(** X11.  Whatever the document does, a navigation to a non-empty hash is
    over after 11 turns of the loop: no timer is pending, no exception
    escaped, at most 11 lookups were made and at most one scroll was
    asked for.  The scroll is asked for exactly when one of the 11
    attempts finds the element, at the first attempt that does, after
    which no further lookup is made. *)
Theorem navigation_always_ends env start hash :
  hash ≠ EmptyString →
  let id := substring1 hash in
  let begun := handleHashNavigation hash (idle start) in
  let final := turn 11 env begun in
  timers final = [] ∧
  uncaught final = [] ∧
  (∀ n, turn (11 + n) env begun = final) ∧
  length (filter isLookup (log final)) ≤ 11 ∧
  length (filter isScroll (log final)) ≤ 1 ∧
  ((∀ k, k ≤ 10 → document env (attemptTime env start k) id = false) →
     filter isScroll (log final) = []) ∧
  (∀ j, j ≤ 10 →
     (∀ k, k < j → document env (attemptTime env start k) id = false) →
     document env (attemptTime env start j) id = true →
     filter isScroll (log final) = [ScrollIntoView (attemptTime env start j) id] ∧
     length (filter isLookup (log final)) = S j).
Proof.
  intros Hhash id begun final. unfold final, begun.
  rewrite (handleHashNavigation_pending env) by done. fold id.
  assert (∀ j, j ≤ 10 →
    (∀ k, k < j → document env (attemptTime env start k) id = false) →
    document env (attemptTime env start j) id = true →
    filter isScroll (log (turn 11 env (pending env start id 0)))
      = [ScrollIntoView (attemptTime env start j) id] ∧
    length (filter isLookup (log (turn 11 env (pending env start id 0)))) = S j)
    as Hfound.
  { intros j Hj Habsent Hpresent. rewrite (turn_eleven_found env start id j) by done.
    cbn [settled log]. by rewrite found_log_scrolls, found_log_lookups. }
  assert ((∀ k, k ≤ 10 → document env (attemptTime env start k) id = false) →
    filter isScroll (log (turn 11 env (pending env start id 0))) = [])
    as Hnone.
  { intros Habsent. rewrite turn_gave_up by done.
    apply failedLookups_no_scroll. }
  destruct (first_found (λ k, document env (attemptTime env start k) id) 11)
    as [Habsent|(j & Hj & Hpresent & Habsent)].
  - assert (∀ k, k ≤ 10 → document env (attemptTime env start k) id = false)
      as Habsent' by (intros; apply Habsent; lia).
    split_and!; [| | | | |done|done].
    + by rewrite turn_gave_up.
    + by rewrite turn_gave_up.
    + intros n. rewrite turn_add, turn_gave_up by done. apply turn_settled.
    + rewrite turn_gave_up by done. cbn [settled log].
      rewrite filter_lookups_failed. unfold failedLookups.
      by rewrite length_fmap, length_seq.
    + rewrite Hnone by done. cbn [length]. lia.
  - destruct (Hfound j ltac:(lia) Habsent Hpresent) as [Hscroll Hlookups].
    split_and!; [| | | | |done|done].
    + by rewrite (turn_eleven_found env start id j) by (done || lia).
    + by rewrite (turn_eleven_found env start id j) by (done || lia).
    + intros n. rewrite turn_add, (turn_eleven_found env start id j) by (done || lia).
      apply turn_settled.
    + rewrite Hlookups. lia.
    + rewrite Hscroll. cbn [length]. lia.
Qed.

Lemma navigation_always_ends_witness :
  let env := {| document := λ time id, (250 <=? time) && String.eqb id "about";
                lateness := λ n, 7 * n |} in
  let final := turn 11 env (handleHashNavigation "#about" (idle 0)) in
  timers final = [] ∧ uncaught final = [] ∧
  length (filter isLookup (log final)) ≤ 11 ∧
  filter isScroll (log final) = [ScrollIntoView 321 "about"].
Proof.
  intros env final.
  destruct (navigation_always_ends env 0 "#about")
    as (Htimers & Hexn & _ & Hlookups & _ & _ & Hfound); [discriminate|].
  split; [exact Htimers|]. split; [exact Hexn|]. split; [exact Hlookups|].
  refine (proj1 (Hfound 2 _ _ _)).
  - lia.
  - intros k Hk. do 2 (destruct k as [|k]; [reflexivity|]). lia.
  - reflexivity.
Defined.

(** X12.  With punctual timers and an element that is in the document
    from time [T] on: if [T] is no later than 1100 ms after the call, the
    one scroll is asked for at the first attempt at or after [T], which is
    the first attempt itself or comes less than 100 ms after [T]; if the
    element arrives later than that, no scroll is ever asked for. *)
Theorem navigation_latency env start hash (T : nat) :
  hash ≠ EmptyString →
  (∀ n, lateness env n = 0) →
  (∀ time, document env time (substring1 hash) = true ↔ T ≤ time) →
  let final := turn 11 env (handleHashNavigation hash (idle start)) in
  (T ≤ start + 1100 →
     ∃ time, filter isScroll (log final) = [ScrollIntoView time (substring1 hash)] ∧
       T ≤ time ∧ start + 100 ≤ time ≤ start + 1100 ∧
       (time = start + 100 ∨ time < T + 100)) ∧
  (start + 1100 < T →
     filter isScroll (log final) = [] ∧ ∀ n, turn (11 + n) env (handleHashNavigation hash (idle start)) = final).
Proof.
  intros Hhash Hp Hdoc final. unfold final.
  rewrite (handleHashNavigation_pending env) by done.
  set (id := substring1 hash) in *.
  assert (∀ k, attemptTime env start k = start + 100 + k * 100) as Htime
    by (intros; by apply attemptTime_punctual).
  split.
  - intros HT.
    destruct (first_found (λ k, document env (attemptTime env start k) id) 11)
      as [Habsent|(j & Hj & Hpresent & Habsent)].
    + specialize (Habsent 10 ltac:(lia)). cbn beta in Habsent.
      assert (document env (attemptTime env start 10) id = true) as Hlast
        by (apply Hdoc; rewrite Htime; lia).
      congruence.
    + exists (attemptTime env start j).
      rewrite (turn_eleven_found env start id j) by (done || lia). cbn [settled log].
      split; [apply found_log_scrolls|].
      pose proof Hpresent as HTj. apply Hdoc in HTj.
      split; [done|]. rewrite Htime in *. split; [lia|].
      destruct j as [|j]; [left; lia|right].
      specialize (Habsent j ltac:(lia)). cbn beta in Habsent.
      assert (¬ T ≤ attemptTime env start j) as Hbefore.
      { intros Hle. apply Hdoc in Hle. congruence. }
      rewrite Htime in Hbefore. lia.
  - intros HT.
    assert (∀ k, k ≤ 10 → document env (attemptTime env start k) id = false)
      as Habsent.
    { intros k Hk. apply not_true_iff_false. rewrite Hdoc, Htime. lia. }
    split.
    + rewrite turn_gave_up by done. apply failedLookups_no_scroll.
    + intros n. rewrite turn_add, turn_gave_up by done. apply turn_settled.
Qed.

Lemma navigation_latency_witness :
  let env := {| document := λ time id, (430 <=? time) && String.eqb id "events";
                lateness := λ _, 0 |} in
  filter isScroll (log (turn 11 env (handleHashNavigation "#events" (idle 0))))
  = [ScrollIntoView 500 "events"].
Proof.
  intros env.
  destruct (navigation_latency env 0 "#events" 430) as [Hin _].
  - discriminate.
  - reflexivity.
  - intros time. cbn [env document substring1].
    rewrite String.eqb_refl, andb_true_r. apply Nat.leb_le.
  - destruct (Hin ltac:(lia)) as (time & Hlog & _). rewrite Hlog.
    vm_compute in Hlog. injection Hlog as <-. reflexivity.
Defined.

End HashNavigationFurtherFacts.

(** ** Elite events panel *)

Section EliteFacts.
Import Elite.
Implicit Types (events clicked : list Event) (activeTab : option Z).

Lemma clicks_snoc activeTab clicked (last : Event) :
  clicks activeTab (clicked ++ [last]) = Some (id last).
Proof. unfold clicks. by rewrite fold_left_app. Qed.

Lemma find_first_match (tab : Z) (l : list Event) (wanted : Event) :
  In wanted l → id wanted = tab →
  ∃ shown, List.find (λ event, (id event =? tab)%Z) l = Some shown ∧
    In shown l ∧ id shown = tab.
Proof.
  intros Hin Hid.
  destruct (List.find (λ event, (id event =? tab)%Z) l) as [shown|] eqn:Hfind.
  - apply find_some in Hfind as [Hshown Htab]. exists shown.
    split_and!; [done|done|]. by apply Z.eqb_eq.
  - pose proof (find_none _ _ Hfind wanted Hin) as Hno. cbn beta in Hno.
    apply Z.eqb_neq in Hno. done.
Qed.

Lemma same_id_same_event (l : list Event) (e1 e2 : Event) :
  NoDup (id <$> l) → In e1 l → In e2 l → id e1 = id e2 → e1 = e2.
Proof.
  induction l as [|e l IH]; intros Hnd H1 H2 Hid; [done|].
  cbn [fmap list_fmap] in Hnd. apply NoDup_cons in Hnd as [Hfresh Hnd].
  destruct H1 as [->|H1], H2 as [->|H2]; [done| | |by apply IH].
  - destruct Hfresh. rewrite Hid. apply list_elem_of_fmap_2.
    by apply list_elem_of_In.
  - destruct Hfresh. rewrite <- Hid. apply list_elem_of_fmap_2.
    by apply list_elem_of_In.
Qed.

Lemma filter_single_id (l : list Event) (wanted : Event) :
  NoDup (id <$> l) → In wanted l →
  List.filter (λ event, (id event =? id wanted)%Z) l = [wanted].
Proof.
  induction l as [|e l IH]; intros Hnd Hin; [done|].
  pose proof Hnd as Hnd'. cbn [fmap list_fmap] in Hnd'.
  apply NoDup_cons in Hnd' as [Hfresh Hnd']. cbn [List.filter].
  destruct (id e =? id wanted)%Z eqn:Hid.
  - apply Z.eqb_eq in Hid.
    assert (e = wanted) as ->.
    { apply (same_id_same_event (e :: l)); [done|by left|done|done]. }
    f_equal. clear IH Hin Hid Hnd Hnd'.
    induction l as [|e l IH]; [done|]. cbn [List.filter].
    destruct (id e =? id wanted)%Z eqn:Hid.
    + apply Z.eqb_eq in Hid. destruct Hfresh. cbn [fmap list_fmap].
      rewrite Hid. by left.
    + apply IH. intros Hin. apply Hfresh. cbn [fmap list_fmap]. by right.
  - apply Z.eqb_neq in Hid. destruct Hin as [->|Hin]; [done|]. by apply IH.
Qed.

Lemma filter_active_tabs (l : list Event) (tab : Z) :
  List.filter snd ((λ event, (event, (id event =? tab)%Z)) <$> l)
  = (λ event, (event, true)) <$> List.filter (λ event, (id event =? tab)%Z) l.
Proof.
  induction l as [|e l IH]; [done|]. cbn [fmap list_fmap List.filter snd].
  destruct (id e =? tab)%Z; [|done]. cbn [fmap list_fmap]. by f_equal.
Qed.

(** X13.  After a click on the tab of an elite event the details panel
    renders, without a TypeError, an elite event with the clicked event's
    id: the first such event in list order, which is the clicked event
    itself when the ids of the elite events are pairwise distinct, and
    then exactly that one tab is active. *)
Theorem elite_panel_follows_clicks events activeTab clicked (last : Event) :
  In last (eliteEvents events) →
  ∃ shown,
    activeEvent events (clicks activeTab (clicked ++ [last])) = Some shown ∧
    In shown (eliteEvents events) ∧ id shown = id last ∧ isElite shown = true ∧
    detailsPanel events (clicks activeTab (clicked ++ [last]))
      = inr (image shown, title shown, description shown, slug shown) ∧
    (NoDup (id <$> eliteEvents events) →
       shown = last ∧
       List.filter snd (tabs events (clicks activeTab (clicked ++ [last])))
       = [(last, true)]).
Proof.
  intros Hlast. rewrite clicks_snoc.
  destruct (find_first_match (id last) (eliteEvents events) last Hlast eq_refl)
    as (shown & Hfind & Hshown & Hid).
  exists shown. unfold detailsPanel. cbn [activeEvent]. rewrite Hfind.
  split_and!; [done|done|done| |done|].
  - unfold eliteEvents in Hshown. by apply filter_In in Hshown as [_ ?].
  - intros Hnd. split; [by apply (same_id_same_event (eliteEvents events))|].
    unfold tabs. by rewrite filter_active_tabs, filter_single_id.
Qed.

Lemma elite_panel_follows_clicks_witness :
  let drone := {| id := 1; title := "DRONE EVENT"; slug := "drone-event";
                  image := "drone.webp"; description := "Capture the Tower.";
                  isElite := true |} in
  let robo := {| id := 2; title := "ROBO DRIVE"; slug := "robo-drive";
                 image := "robo.webp"; description := "Robotics competition.";
                 isElite := true |} in
  detailsPanel [drone; robo] (clicks (initialTab [drone; robo]) [drone; robo])
  = inr ("robo.webp", "ROBO DRIVE", "Robotics competition.", "robo-drive")%string.
Proof.
  intros drone robo.
  destruct (elite_panel_follows_clicks [drone; robo]
    (initialTab [drone; robo]) [drone] robo) as (shown & _ & _ & _ & _ & Hpanel & Hsame).
  - right. by left.
  - destruct Hsame as [-> _]; [|exact Hpanel].
    apply NoDup_cons. split; [|apply NoDup_singleton].
    intros Hin. apply list_elem_of_singleton in Hin. discriminate.
Defined.

(** X14.  Before any click the details panel throws a TypeError exactly
    when there is no elite event or the first elite event has id 0 (which
    [|| null] turns into no tab); otherwise it shows the first elite
    event. *)
Theorem elite_initial_panel events :
  (detailsPanel events (initialTab events) = inl "TypeError"%string ↔
     eliteEvents events = [] ∨
     ∃ first rest, eliteEvents events = first :: rest ∧ id first = 0%Z) ∧
  (∀ first rest, eliteEvents events = first :: rest → id first ≠ 0%Z →
     detailsPanel events (initialTab events)
     = inr (image first, title first, description first, slug first)).
Proof.
  unfold detailsPanel, initialTab.
  destruct (eliteEvents events) as [|first rest] eqn:Helite.
  - cbn [activeEvent]. split; [|done]. split; [by left|done].
  - destruct (id first =? 0)%Z eqn:Hzero.
    + apply Z.eqb_eq in Hzero. cbn [activeEvent]. split.
      * split; [|done]. intros _. right. by exists first, rest.
      * by intros ? ? [= <- <-].
    + apply Z.eqb_neq in Hzero. cbn [activeEvent]. rewrite Helite.
      cbn [List.find]. rewrite Z.eqb_refl. split.
      * split; [done|]. intros [?|(? & ? & [= <- <-] & ?)]; done.
      * by intros ? ? [= <- <-].
Qed.

Lemma elite_initial_panel_witness :
  detailsPanel
    [ {| id := 1; title := "DRONE EVENT"; slug := "drone-event";
         image := "drone.webp"; description := "Capture the Tower.";
         isElite := false |} ]
    (initialTab
       [ {| id := 1; title := "DRONE EVENT"; slug := "drone-event";
            image := "drone.webp"; description := "Capture the Tower.";
            isElite := false |} ])
  = inl "TypeError"%string.
Proof.
  apply (proj1 (elite_initial_panel _)). by left.
Defined.

End EliteFacts.

(** ** Navbar scroll state and active section *)

Section ScrollHooksFacts.
Import Js.
Local Open Scope Q_scope.

(** X15.  The navbar can be past the hero without counting as scrolled
    only if the threshold is at least half the viewport height: for a
    smaller threshold every scroll offset that is not at the hero is
    scrolled. *)
Theorem navbar_past_hero_is_scrolled (threshold innerHeight : Q) :
  innerHeight * 0.5 <= threshold ↔
  ∃ scrollY,
    useNavbarScroll.handleScroll threshold scrollY innerHeight
    = {| useNavbarScroll.isScrolled := false; useNavbarScroll.isAtHero := false |}.
Proof.
  unfold useNavbarScroll.handleScroll. split.
  - intros Hle. exists threshold. f_equal; apply Qltb_ge; lra.
  - intros (scrollY & [= Hscrolled Hhero]). apply Qltb_ge in Hscrolled, Hhero. lra.
Qed.

Lemma navbar_past_hero_is_scrolled_witness :
  ∃ scrollY,
    useNavbarScroll.handleScroll 500 scrollY 800
    = {| useNavbarScroll.isScrolled := false; useNavbarScroll.isAtHero := false |}.
Proof.
  apply (proj1 (navbar_past_hero_is_scrolled 500 800)). discriminate.
Defined.

Lemma delivered_snoc (present : string → bool) (sectionIds : list string)
    (changes : list (string * useActiveSection.Entry))
    (change : string * useActiveSection.Entry) :
  useActiveSection.delivered present sectionIds (changes ++ [change])
  = useActiveSection.deliver present sectionIds
      (useActiveSection.delivered present sectionIds changes) change.
Proof. unfold useActiveSection.delivered. by rewrite fold_left_app. Qed.

(** X16.  Whatever entries the observers report, the active section is
    either still the initial one (the first id, or none when the list is
    empty or starts with the empty string) or an id of the list whose
    element was in the document when the observers were made, for which
    an entry was reported as intersecting with a ratio above 0.3. *)
Theorem active_section_is_observed (present : string → bool)
    (sectionIds : list string)
    (changes : list (string * useActiveSection.Entry)) :
  let active := useActiveSection.delivered present sectionIds changes in
  active = useActiveSection.initial sectionIds ∨
  ∃ id entry, active = Some id ∧ id ∈ sectionIds ∧ present id = true ∧
    (id, entry) ∈ changes ∧
    useActiveSection.isIntersecting entry = true ∧
    0.3 < useActiveSection.intersectionRatio entry.
Proof.
  cbn zeta. induction changes as [|[id entry] changes IH] using rev_ind.
  - by left.
  - rewrite delivered_snoc. unfold useActiveSection.deliver. cbn [fst snd].
    assert (useActiveSection.delivered present sectionIds changes
            = useActiveSection.initial sectionIds ∨
            ∃ id0 entry0,
              useActiveSection.delivered present sectionIds changes = Some id0 ∧
              id0 ∈ sectionIds ∧ present id0 = true ∧
              (id0, entry0) ∈ changes ++ [(id, entry)] ∧
              useActiveSection.isIntersecting entry0 = true ∧
              0.3 < useActiveSection.intersectionRatio entry0) as Hkeep.
    { destruct IH as [?|(id0 & entry0 & ? & ? & ? & ? & ? & ?)]; [by left|right].
      exists id0, entry0. split_and!; [done|done|done| |done|done].
      apply elem_of_app. by left. }
    case_bool_decide as Hobs; [|done].
    unfold useActiveSection.callback.
    destruct (useActiveSection.isIntersecting entry) eqn:Hint; [|done].
    destruct (Qltb 0.3 (useActiveSection.intersectionRatio entry)) eqn:Hratio;
      [|done].
    cbn [andb]. right. exists id, entry.
    unfold useActiveSection.observed in Hobs.
    apply list_elem_of_In, filter_In in Hobs as [Hin Hpresent].
    split_and!; [done|by apply list_elem_of_In|done| |done|by apply Qltb_lt].
    apply elem_of_app. right. by apply list_elem_of_singleton.
Qed.

End ScrollHooksFacts.

(** ** Animation variants *)

Section MotionFacts.
Import motion.
Local Open Scope Q_scope.

Lemma directions_other (direction : string) :
  direction ≠ "up"%string → direction ≠ "down"%string →
  direction ≠ "left"%string → direction ≠ "right"%string →
  directions !! direction = None.
Proof.
  intros. unfold directions.
  rewrite !lookup_insert_ne by done. by apply lookup_singleton_ne.
Qed.

(** X17.  For every direction, known or not, the reveal variant starts
    where the section wrapper starts its content at progress 0: the same
    number of pixels on each axis, a key missing from the variant
    counting as 0. *)
Theorem scrollReveal_starts_like_section (direction : string) (delay : Q) :
  ∃ px py,
    pixels (x (hidden (scrollReveal direction delay))) = Some px ∧
    pixels (y (hidden (scrollReveal direction delay))) = Some py ∧
    px == SectionWrapper.contentX (SectionWrapper.SectionWrapper direction 0) ∧
    py == SectionWrapper.contentY (SectionWrapper.SectionWrapper direction 0).
Proof.
  destruct (decide (direction = "up"%string)) as [->|Hup];
    [by exists 0, 80|].
  destruct (decide (direction = "down"%string)) as [->|Hdown];
    [by exists 0, (-80)|].
  destruct (decide (direction = "left"%string)) as [->|Hleft];
    [by exists 80, 0|].
  destruct (decide (direction = "right"%string)) as [->|Hright];
    [by exists (-80), 0|].
  exists 0, 0. cbn [scrollReveal hidden x y].
  rewrite directions_other by done. split; [done|]. split; [done|].
  unfold SectionWrapper.SectionWrapper.
  cbn [SectionWrapper.contentX SectionWrapper.contentY].
  apply String.eqb_neq in Hup, Hdown, Hleft, Hright.
  rewrite Hup, Hdown, Hleft, Hright. by split.
Qed.

(** X18.  The slide variant never starts an element above its place: for
    every direction its vertical start is 100% below or at rest, and
    "down" starts exactly where "up" does, while "left" and "right" start
    on opposite sides. *)
Theorem slideIn_down_starts_below (direction type : string) (delay duration : Q) :
  (y (hidden (slideIn direction type delay duration)) = Some (Percent 100) ∨
   y (hidden (slideIn direction type delay duration)) = Some (Pixels 0)) ∧
  hidden (slideIn "down" type delay duration)
    = hidden (slideIn "up" type delay duration) ∧
  x (hidden (slideIn "left" type delay duration)) = Some (Percent (-100)) ∧
  x (hidden (slideIn "right" type delay duration)) = Some (Percent 100).
Proof.
  split_and!; [|done..]. cbn [slideIn hidden y].
  destruct (String.eqb direction "up"); [by left|].
  destruct (String.eqb direction "down"); [by left | by right].
Qed.

End MotionFacts.

(** ** Configured curves: ranges and axes *)

Section CurveRangeFacts.
Import Js Curve.
Local Open Scope Q_scope.
Implicit Types (curve rest : list (Q * Q)) (t lo hi : Q).

(** A blend of two values with a progress between 0 and 1 lies between
    them. *)
Lemma mix_bounded (v0 v1 p lo hi : Q) :
  0 <= p <= 1 → lo <= v0 <= hi → lo <= v1 <= hi → lo <= mix v0 v1 p <= hi.
Proof. unfold mix. intros. split; nra. Qed.

Lemma between_bounded rest b0 v0 t lo hi :
  increasing (b0 :: rest.*1) = true → b0 < t →
  lo <= v0 <= hi → Forall (λ p, lo <= p.2 <= hi) rest →
  lo <= between b0 v0 rest t <= hi.
Proof.
  revert b0 v0. induction rest as [|[b1 v1] rest IH];
    intros b0 v0 Hinc Ht Hv0 Hrest; [done|].
  cbn [fmap list_fmap fst] in Hinc. apply increasing_cons in Hinc as [Hlt Hinc].
  apply Forall_cons in Hrest as [Hv1 Hrest]. cbn [between snd] in *.
  destruct (Qle_bool t b1) eqn:Hb1.
  - apply Qle_bool_iff in Hb1. apply mix_bounded; [|done|done].
    assert ((t - b0) / (b1 - b0) * (b1 - b0) == t - b0) as Hp by (field; lra).
    set (p := (t - b0) / (b1 - b0)) in *. split; nra.
  - apply not_true_iff_false in Hb1. rewrite Qle_bool_iff in Hb1.
    apply IH; [done|lra|done|done].
Qed.

(** The evaluator never leaves the range of the configured values. *)
Lemma evaluate_bounded curve t lo hi :
  curve ≠ [] → increasing curve.*1 = true →
  Forall (λ p, lo <= p.2 <= hi) curve →
  lo <= evaluate curve t <= hi.
Proof.
  destruct curve as [|[b0 v0] rest]; [done|]. intros _ Hinc Hall.
  pose proof Hall as Hall'. apply Forall_cons in Hall' as [Hv0 Hrest].
  cbn [evaluate snd] in *.
  destruct (default (b0, v0) (last rest)) as [bn vn] eqn:Hlast.
  assert (lo <= vn <= hi) as Hvn.
  { destruct (last rest) as [[b v]|] eqn:Hl; cbn [default] in Hlast.
    - injection Hlast as -> ->. apply last_Some in Hl as [pre ->].
      apply Forall_app in Hrest as [_ Hrest].
      by apply Forall_cons in Hrest as [? _].
    - by injection Hlast as <- <-. }
  destruct (Qle_bool t b0) eqn:H0; [done|].
  destruct (Qle_bool bn t); [done|].
  apply not_true_iff_false in H0. rewrite Qle_bool_iff in H0.
  apply between_bounded; [done|lra|done|done].
Qed.

(** The same with a range check that computes. *)
Lemma useTransform_bounded (inputRange outputRange : list Q) t lo hi :
  increasing inputRange = true →
  length inputRange = length outputRange → inputRange ≠ [] →
  forallb (λ v, Qle_bool lo v && Qle_bool v hi) outputRange = true →
  lo <= useTransform t inputRange outputRange <= hi.
Proof.
  intros Hinc Hlen Hne Hall. unfold useTransform. apply evaluate_bounded.
  - destruct inputRange, outputRange; done.
  - by rewrite fst_zip by lia.
  - apply Forall_forall. intros [b v] Hin. cbn [snd].
    apply elem_of_zip_r in Hin. apply list_elem_of_In in Hin.
    rewrite forallb_forall in Hall. specialize (Hall v Hin).
    apply andb_true_iff in Hall as [Hlo Hhi].
    by rewrite !Qle_bool_iff in *.
Qed.

(** X19.  At every progress value, also outside the interval from 0 to 1,
    the hook's curves stay in range: opacity between 0 and 1, vertical
    offset between -100 and 100, scale between 0.95 and 1, blur between 0
    and 10 (curve evaluation as in section 4.2 of the specification). *)
Theorem useScrollSection_curves_in_range (scrollYProgress : Q) :
  0 <= useScrollSection.opacity scrollYProgress <= 1 ∧
  -100 <= useScrollSection.y scrollYProgress <= 100 ∧
  0.95 <= useScrollSection.scale scrollYProgress <= 1 ∧
  0 <= useScrollSection.blur scrollYProgress <= 10.
Proof.
  split; [|split; [|split]]; by apply useTransform_bounded.
Qed.

(** X20.  At every progress value and for every direction string the
    section wrapper's outputs stay in range: the two overlay opacities
    and the content opacity between 0 and 1, the content scale between
    0.95 and 1, each content offset between -80 and 80 pixels (curve
    evaluation as in section 4.2 of the specification). *)
Theorem section_styles_in_range (animationDirection : string) (scrollYProgress : Q) :
  let style := SectionWrapper.SectionWrapper animationDirection scrollYProgress in
  0 <= SectionWrapper.blendTopOpacity style <= 1 ∧
  0 <= SectionWrapper.blendBottomOpacity style <= 1 ∧
  0 <= SectionWrapper.contentOpacity style <= 1 ∧
  0.95 <= SectionWrapper.contentScale style <= 1 ∧
  -80 <= SectionWrapper.contentY style <= 80 ∧
  -80 <= SectionWrapper.contentX style <= 80.
Proof.
  cbn zeta. unfold SectionWrapper.SectionWrapper.
  cbn [SectionWrapper.blendTopOpacity SectionWrapper.blendBottomOpacity
       SectionWrapper.contentOpacity SectionWrapper.contentScale
       SectionWrapper.contentY SectionWrapper.contentX].
  split; [|split; [|split; [|split; [|split]]]];
    try (by apply useTransform_bounded).
  - destruct (String.eqb animationDirection "up");
      [|destruct (String.eqb animationDirection "down")];
      by apply useTransform_bounded.
  - destruct (String.eqb animationDirection "left");
      [|destruct (String.eqb animationDirection "right")];
      by apply useTransform_bounded.
Qed.

(** X21.  The content slides along one axis at most: for every direction
    string and every progress between 0 and 1 one of the two offsets is
    0, and for a direction other than "up", "down", "left" and "right"
    both are (curve evaluation as in section 4.2 of the specification). *)
Theorem section_offset_single_axis (animationDirection : string) (t : Q) :
  0 <= t <= 1 →
  let style := SectionWrapper.SectionWrapper animationDirection t in
  (SectionWrapper.contentX style == 0 ∨ SectionWrapper.contentY style == 0) ∧
  (animationDirection ≠ "up"%string → animationDirection ≠ "down"%string →
   animationDirection ≠ "left"%string → animationDirection ≠ "right"%string →
   SectionWrapper.contentX style == 0 ∧ SectionWrapper.contentY style == 0).
Proof.
  intros Ht. cbn zeta. unfold SectionWrapper.SectionWrapper.
  cbn [SectionWrapper.contentY SectionWrapper.contentX]. split.
  - destruct (String.eqb animationDirection "up") eqn:Hup.
    { apply String.eqb_eq in Hup as ->. left. by apply offset_none. }
    destruct (String.eqb animationDirection "down") eqn:Hdown.
    { apply String.eqb_eq in Hdown as ->. left. by apply offset_none. }
    right. by apply offset_none.
  - intros Hup Hdown Hleft Hright.
    apply String.eqb_neq in Hup, Hdown, Hleft, Hright.
    rewrite Hup, Hdown, Hleft, Hright. split; by apply offset_none.
Qed.

Lemma section_offset_single_axis_witness :
  SectionWrapper.contentX (SectionWrapper.SectionWrapper "diagonal" 0.1) == 0 ∧
  SectionWrapper.contentY (SectionWrapper.SectionWrapper "diagonal" 0.1) == 0.
Proof.
  assert (0 <= 0.1 <= 1) as Ht by (split; discriminate).
  apply (proj2 (section_offset_single_axis "diagonal" 0.1 Ht)); discriminate.
Defined.

End CurveRangeFacts.

(** ** Further: slow scrolling, reading order of the grid, fade variant *)

Section SlowScrollFacts.
Import Js ScrollProgressCharacter ScrollProgressCharacterView.
Local Open Scope Q_scope.

(** X22.  The dead zone is per event: a scroll made of steps of at most
    one pixel each, however far it goes in total, never turns the
    character, never starts the walk and never touches the timer, while
    the remembered offset follows the page. *)
Theorem slow_scroll_never_walks (windows : list Window) (s : State) :
  slowly (lastScrollY s) windows →
  let s' := steps s (Scroll <$> windows) in
  direction s' = direction s ∧ isWalking s' = isWalking s ∧
  walkingTimeout s' = walkingTimeout s ∧
  lastScrollY s' = default (lastScrollY s) (scrollY <$> last windows).
Proof.
  cbn zeta. revert s. induction windows as [|w windows IH]; intros s Hslow.
  - done.
  - destruct Hslow as [Hstep Hslow]. unfold steps.
    cbn [fmap list_fmap fold_left step]. fold (steps (handleScroll w s) (Scroll <$> windows)).
    destruct (IH (handleScroll w s)) as (Hdir & Hwalk & Htimer & Hlast); [done|].
    rewrite Hdir, Hwalk, Htimer, Hlast.
    cbn [handleScroll direction isWalking walkingTimeout lastScrollY].
    apply Qltb_ge in Hstep. rewrite Hstep. split_and!; [done|done|done|].
    rewrite last_cons. by destruct (last windows).
Qed.

Lemma slow_scroll_never_walks_witness :
  let page y := {| scrollY := y; innerHeight := 800; scrollHeight := 2400;
                   footerTop := None; now := 0 |} in
  let s' := steps mount (Scroll <$> [page 1; page 2; page 3; page 4]) in
  isWalking s' = false ∧ lastScrollY s' = 4.
Proof.
  intros page s'.
  destruct (slow_scroll_never_walks [page 1; page 2; page 3; page 4] mount)
    as (_ & Hwalk & _ & Hlast).
  - cbn. repeat split; discriminate.
  - split; [exact Hwalk | exact Hlast].
Defined.

End SlowScrollFacts.

Section ReadingOrderFacts.
Import Faq.

Lemma withIndex_take {A : Type} (items : list A) (idx i : nat) :
  take i (withIndex idx items) = withIndex idx (take i items).
Proof.
  revert idx i. induction items as [|x items IH]; intros idx [|i]; try done.
  cbn [withIndex take]. by rewrite IH.
Qed.

(** An element that passes the filter sits in the filtered list after the
    elements that pass it among those before. *)
Lemma filter_lookup_at {A : Type} (P : A → Prop) `{∀ x, Decision (P x)}
    (l : list A) (i : nat) (x : A) :
  l !! i = Some x → P x →
  filter P l !! length (filter P (take i l)) = Some x.
Proof.
  intros Hi HP.
  assert (filter P l = filter P (take i l) ++ x :: filter P (drop (S i) l)) as ->.
  { rewrite <- (take_drop_middle l i x Hi) at 1.
    by rewrite filter_app, filter_cons_True. }
  by rewrite lookup_app_r, Nat.sub_diag by lia.
Qed.

(** X23.  Read row by row the grid shows the items in their original
    order: the entry in row [r] of column [c] is the item at position
    [r * cols + c]. *)
Theorem masonry_reading_order {A : Type} (items : list A) (cols r c : nat) (x : A) :
  c < cols → items !! (r * cols + c) = Some x →
  ∃ arr col, columns items cols = Some arr ∧ arr !! c = Some col ∧
    col !! r = Some (x, r * cols + c).
Proof.
  intros Hc Hx. eexists. eexists. split; [apply columns_closed_form; lia|].
  split; [by rewrite list_lookup_fmap, lookup_seq_lt|]. cbn beta.
  set (i := r * cols + c) in *.
  pose proof (withIndex_lookup items 0 i x Hx) as Hi. cbn [Nat.add] in Hi.
  pose proof (filter_lookup_at (inColumn cols c) (withIndex 0 items) i (x, i) Hi)
    as Hat.
  assert (i mod cols = c) as Hmod.
  { unfold i. rewrite Nat.add_comm, Nat.Div0.mod_add. by apply Nat.mod_small. }
  assert (i / cols = r) as Hdiv.
  { unfold i. rewrite Nat.add_comm, Nat.div_add by lia.
    rewrite Nat.div_small by done. done. }
  rewrite withIndex_take in Hat.
  pose proof (class_length cols c 0 (take i items) Hc) as Hcount.
  apply lookup_lt_Some in Hx as Hlt.
  rewrite length_take_le in Hcount by lia.
  rewrite Nat.Div0.div_0_l, Nat.Div0.mod_0_l in Hcount.
  rewrite decide_False in Hcount by lia. cbn [Nat.add] in Hcount.
  rewrite Hmod, Hdiv in Hcount. rewrite decide_False in Hcount by lia.
  replace (length (filter (inColumn cols c) (withIndex 0 (take i items))))
    with r in Hat by lia.
  by apply Hat.
Qed.

Lemma masonry_reading_order_witness :
  ∃ arr col, columns (seq 0 10) 3 = Some arr ∧ arr !! 1 = Some col ∧
    col !! 2 = Some (7, 7).
Proof.
  apply (masonry_reading_order (seq 0 10) 3 2 1 7); [lia | reflexivity].
Defined.

End ReadingOrderFacts.

Section FadeFacts.
Import motion.
Local Open Scope Q_scope.

(** X24.  The fade variant and the reveal variant displace the same axis
    in the same sense, by 100 pixels against 80, for every direction; for
    a direction neither knows both start at rest. *)
Theorem fadeIn_agrees_with_scrollReveal (direction type : string)
    (delay duration revealDelay : Q) :
  ∃ fx fy rx ry,
    x (hidden (fadeIn direction type delay duration)) = Some (Pixels fx) ∧
    y (hidden (fadeIn direction type delay duration)) = Some (Pixels fy) ∧
    pixels (x (hidden (scrollReveal direction revealDelay))) = Some rx ∧
    pixels (y (hidden (scrollReveal direction revealDelay))) = Some ry ∧
    fx * 80 == rx * 100 ∧ fy * 80 == ry * 100 ∧
    (fx == 0 ∨ fy == 0).
Proof.
  destruct (decide (direction = "up"%string)) as [->|Hup].
  { exists 0, 100, 0, 80. split_and!; try done. by left. }
  destruct (decide (direction = "down"%string)) as [->|Hdown].
  { exists 0, (-100), 0, (-80). split_and!; try done. by left. }
  destruct (decide (direction = "left"%string)) as [->|Hleft].
  { exists 100, 0, 80, 0. split_and!; try done. by right. }
  destruct (decide (direction = "right"%string)) as [->|Hright].
  { exists (-100), 0, (-80), 0. split_and!; try done. by right. }
  exists 0, 0, 0, 0. cbn [fadeIn scrollReveal hidden x y].
  rewrite directions_other by done.
  apply String.eqb_neq in Hup, Hdown, Hleft, Hright.
  rewrite Hup, Hdown, Hleft, Hright. split_and!; try done. by left.
Qed.

End FadeFacts.
